(** * IPCovSmearing: binned covariance smearing of track parameters

    A shallow embedding of [modules/IPCovSmearing.cc].  The module loads one
    5x5 covariance matrix per (pt bin, eta bin) from a parametrisation file,
    converts its units, inflates the bins below the lowest pt edge, stores the
    matrix together with its Cholesky factor, and then smears every input
    track by [L * r] in the basis (d0, z0, phi, theta, qoverp).

    Conventions of the embedding:
    - a C++ [double] (and a [float] cell of a candidate) is a real number of
      [R]: the theorems are about the exact arithmetic that the code rounds.
      The scan over the bin edges is generic in the comparison and is also
      run on binary64 values.  Where an operation on doubles leaves the
      real numbers (a division by zero, the logarithm of a number that is
      not positive) the code goes on with a NaN or an infinity; the model
      stops there with [not_finite], so that a turn of [Process] that ends
      in [Ok] is one whose doubles are all real numbers.  The one NaN the
      code looks at, in the assertion on the reconstructed pt, fails that
      assertion in the model too;
    - an [int] is an integer of [Z].  The recursion of [getValidBins] is the
      one place where an [int] is decremented without a bound, and the model
      reports the decrement that leaves the 32-bit range; the miss counter
      is counted in [Z];
    - [std::map] is a finite map of stdpp, and the nested maps are nested;
    - exceptions, failed assertions and undefined behaviour are the failures
      of a [result]; member variables are the fields of a record that is
      passed along; candidates live in a store and are named by address;
    - what belongs to ROOT or Eigen is taken by its documented behaviour:
      a [TFile] that opened is the finite map of its named matrices,
      [cov.llt()] is a parameter of [Init], and a [TLorentzVector] is read
      and written in the coordinates (pt, eta, phi, m).

    The helpers of [modules/HDF5Writer.cc] that name the output files and
    collect the tracks of a jet are embedded after the module, in
    [HDF5Writer]. *)

From Stdlib Require Import Reals Lra Lia ZArith List Ascii String.
From Stdlib Require Floats.
From stdpp Require Import gmap strings pretty sorting.

Local Open Scope Z_scope.

(** ** Outcomes of a call *)

Inductive failure : Type :=
| invalid_argument (what : string)   (* std::invalid_argument *)
| logic_error (what : string)        (* std::logic_error *)
| out_of_range                       (* std::map::at on a missing key *)
| assertion_failed                   (* assert(...) *)
| null_dereference                   (* TObjArray::At gave no object *)
| signed_overflow                    (* an int left its range: undefined *)
| not_finite                         (* a double is a NaN or an infinity *)
| still_running.                     (* the recursion budget is used up *)

Inductive result (A : Type) : Type :=
| Ok (a : A)
| Fail (e : failure).
Arguments Ok {A} a.
Arguments Fail {A} e.

(** Sequencing stops at the first failure; [x ← r; k] is stdpp's notation. *)
#[global] Instance result_bind : MBind result :=
  fun A B (k : A -> result B) (r : result A) =>
    match r with
    | Ok a => k a
    | Fail e => Fail e
    end.

(** The least value of an [int]. *)
Definition INT_MIN : Z := - 2 ^ 31.

(** ** Track parameters and 5x5 matrices *)

(** Modelled from the spec: the enumerators of [TrackParam], declared in
    [modules/IPCovSmearing.h], which is not among the sources; rows and
    columns are ordered (d0, z0, phi, theta, qoverp), the order in which
    [Process] fills [track_parameters]. *)
Module TrackParam.
Definition D0 : nat := 0.
Definition Z0 : nat := 1.
Definition PHI : nat := 2.
Definition THETA : nat := 3.
Definition QOVERP : nat := 4.
End TrackParam.

(** [CovMatrix] is [Eigen::Matrix<double,5,5>] and [TrackVector] is
    [Eigen::Matrix<double,5,1>]: coefficients read by index.  Only the
    indices below 5 are meaningful. *)
Definition CovMatrix : Type := nat -> nat -> R.
Definition TrackVector : Type := nat -> R.

Section Eigen.
Local Open Scope R_scope.

Definition sum5 (f : nat -> R) : R :=
  f 0%nat + f 1%nat + f 2%nat + f 3%nat + f 4%nat.

(** [CovMatrix::Identity()] *)
Definition Identity : CovMatrix :=
  fun i j => if Nat.eqb i j then 1 else 0.

(** [m(i,j) = v] *)
Definition set_coeff (m : CovMatrix) (i j : nat) (v : R) : CovMatrix :=
  fun i' j' => if (Nat.eqb i' i && Nat.eqb j' j)%bool then v else m i' j'.

(** [a * b] *)
Definition mat_mul (a b : CovMatrix) : CovMatrix :=
  fun i j => sum5 (fun k => a i k * b k j).

(** [a * c] for a scalar [c] *)
Definition mat_scale (a : CovMatrix) (c : R) : CovMatrix :=
  fun i j => a i j * c.

(** [a * v] *)
Definition mat_vec (a : CovMatrix) (v : TrackVector) : TrackVector :=
  fun i => sum5 (fun k => a i k * v k).

(** [u + v] *)
Definition vec_add (u v : TrackVector) : TrackVector :=
  fun i => u i + v i.

(** [v << a, b, c, d, e] *)
Definition vec_of (a b c d e : R) : TrackVector :=
  fun i =>
    match i with
    | 0%nat => a
    | 1%nat => b
    | 2%nat => c
    | 3%nat => d
    | _ => e
    end.

(** Equality of the 25 (resp. 5) coefficients. *)
Definition mat_eq (a b : CovMatrix) : Prop :=
  forall i j, (i < 5)%nat -> (j < 5)%nat -> a i j = b i j.
Definition vec_eq (u v : TrackVector) : Prop :=
  forall i, (i < 5)%nat -> u i = v i.

(** [x^T a x >= 0] for every [x]: what a Cholesky factorisation needs. *)
Definition positive_semidefinite (a : CovMatrix) : Prop :=
  forall x : TrackVector, 0 <= sum5 (fun i => x i * mat_vec a x i).
End Eigen.

(** What [cov.llt()] gives: Eigen's [LLT] object, of which the module reads
    [matrixL()] and never [info()]. *)
Inductive ComputationInfo : Type := Success | NumericalIssue.
Record LLT : Type := { matrixL : CovMatrix; info : ComputationInfo }.

(** ** The corrections applied to a loaded matrix *)

Section Corrections.
Local Open Scope R_scope.
Import TrackParam.

Definition unct_mul : R := 2.0.

Definition do_low_pt_hack (cov_matrix : CovMatrix) : CovMatrix :=
  let hack_matrix :=
    fold_left (fun h comp => set_coeff h comp comp unct_mul)
      (D0 :: Z0 :: nil) Identity in
  mat_mul (mat_mul hack_matrix cov_matrix) hack_matrix.

Definition convert_units_to_gev (matrix : CovMatrix) : CovMatrix :=
  let gev_from_mev := set_coeff Identity 4 4 1000 in
  mat_mul (mat_mul gev_from_mev matrix) gev_from_mev.
End Corrections.

(** ** The parametrisation file *)

(** A [TFile] read through [GetObject]: the named [TMatrixDSym] objects. *)
Abbreviation TFile := (gmap string CovMatrix).

(** [%.2i] of printf: at least two digits, a sign in front of them. *)
Definition format_2i (n : Z) : string :=
  let digits := pretty (Z.abs_N n) in
  let padded :=
    if (String.length digits <? 2)%nat then ("0" +:+ digits)%string else digits in
  if n <? 0 then ("-" +:+ padded)%string else padded.

Definition matrix_name (ptbin etabin : Z) : string :=
  ("covmat_ptbin" +:+ format_2i ptbin +:+ "_etabin" +:+ format_2i etabin)%string.

Definition get_cov_matrix (file : TFile) (ptbin etabin : Z) : result CovMatrix :=
  let lowpt_hack := ptbin =? -1 in
  let ptbin := if lowpt_hack then 0 else ptbin in
  let name := matrix_name ptbin etabin in
  match file !! name with
  | None => Fail (invalid_argument ("no bin " +:+ name))
  | Some cptr =>
      let covariance : CovMatrix := fun iii jjj => cptr iii jjj in
      let covariance := convert_units_to_gev covariance in
      let covariance :=
        if lowpt_hack then do_low_pt_hack covariance else covariance in
      Ok covariance
  end.

(** ** The module's members *)

(** The random source behind [std::normal_distribution]: the values it will
    hand out, and how many were taken. *)
Record RandomGenerator : Type := {
  draws : nat -> R;
  position : nat
}.

Abbreviation BinMap := (gmap Z (gmap Z CovMatrix)).

Record IPCovSmearing : Type := {
  fNBinMisses : Z;
  fSmearingMatrices : BinMap;
  fCovarianceMatrices : BinMap;
  ptbins : list R;
  etabins : list R;
  fRandomGenerator : RandomGenerator;
  sout : list string   (* lines sent to the configuration reader's stream *)
}.

Definition set_fNBinMisses (f : Z -> Z) (self : IPCovSmearing) : IPCovSmearing :=
  {| fNBinMisses := f (fNBinMisses self);
     fSmearingMatrices := fSmearingMatrices self;
     fCovarianceMatrices := fCovarianceMatrices self;
     ptbins := ptbins self; etabins := etabins self;
     fRandomGenerator := fRandomGenerator self; sout := sout self |}.

Definition set_fSmearingMatrices (f : BinMap -> BinMap) (self : IPCovSmearing)
  : IPCovSmearing :=
  {| fNBinMisses := fNBinMisses self;
     fSmearingMatrices := f (fSmearingMatrices self);
     fCovarianceMatrices := fCovarianceMatrices self;
     ptbins := ptbins self; etabins := etabins self;
     fRandomGenerator := fRandomGenerator self; sout := sout self |}.

Definition set_fCovarianceMatrices (f : BinMap -> BinMap) (self : IPCovSmearing)
  : IPCovSmearing :=
  {| fNBinMisses := fNBinMisses self;
     fSmearingMatrices := fSmearingMatrices self;
     fCovarianceMatrices := f (fCovarianceMatrices self);
     ptbins := ptbins self; etabins := etabins self;
     fRandomGenerator := fRandomGenerator self; sout := sout self |}.

Definition set_bins (pt eta : list R) (self : IPCovSmearing) : IPCovSmearing :=
  {| fNBinMisses := fNBinMisses self;
     fSmearingMatrices := fSmearingMatrices self;
     fCovarianceMatrices := fCovarianceMatrices self;
     ptbins := pt; etabins := eta;
     fRandomGenerator := fRandomGenerator self; sout := sout self |}.

Definition set_fRandomGenerator (g : RandomGenerator) (self : IPCovSmearing)
  : IPCovSmearing :=
  {| fNBinMisses := fNBinMisses self;
     fSmearingMatrices := fSmearingMatrices self;
     fCovarianceMatrices := fCovarianceMatrices self;
     ptbins := ptbins self; etabins := etabins self;
     fRandomGenerator := g; sout := sout self |}.

Definition print (line : string) (self : IPCovSmearing) : IPCovSmearing :=
  {| fNBinMisses := fNBinMisses self;
     fSmearingMatrices := fSmearingMatrices self;
     fCovarianceMatrices := fCovarianceMatrices self;
     ptbins := ptbins self; etabins := etabins self;
     fRandomGenerator := fRandomGenerator self; sout := sout self ++ line :: nil |}.

(** The constructor: no miss counted, empty maps and vectors. *)
Definition new_IPCovSmearing (rng : RandomGenerator) : IPCovSmearing :=
  {| fNBinMisses := 0;
     fSmearingMatrices := ∅; fCovarianceMatrices := ∅;
     ptbins := nil; etabins := nil;
     fRandomGenerator := rng; sout := nil |}.

(** [m[i][j]] read without inserting, [m.at(i).at(j)], and [m[i][j] = v]
    ([operator[]] creates the inner map when the outer key is new). *)
Definition lookup2 (m : BinMap) (i j : Z) : option CovMatrix :=
  inner ← m !! i; inner !! j.

Definition at2 (m : BinMap) (i j : Z) : result CovMatrix :=
  match lookup2 m i j with
  | Some v => Ok v
  | None => Fail out_of_range
  end.

Definition insert2 (i j : Z) (v : CovMatrix) (m : BinMap) : BinMap :=
  <[i := <[j := v]> (default ∅ (m !! i))]> m.

(** ** Init *)

(** [for (int i = from; i < from + count; i++) body]: the body can fail. *)
Fixpoint for_each {S : Type} (body : Z -> S -> result S) (l : list Z) (s : S)
  : result S :=
  match l with
  | nil => Ok s
  | i :: rest => s' ← body i s; for_each body rest s'
  end.

Definition no_smearing_message (ipt ieta : Z) : string :=
  ("** INFO: no smearing defined for pt-eta " +:+ pretty ipt +:+ " " +:+ pretty ieta)%string.

Section Init.
(** [cov.llt()] is Eigen's; it gives an [LLT] for every matrix. *)
Variable llt : CovMatrix -> LLT.
Variable file_para : TFile.
Variable smear_mult : R.

(** The body of the two loops: the [try] block and its handler, which
    catches [std::invalid_argument] and nothing else. *)
Definition Init_bin (ipt ieta : Z) (self : IPCovSmearing) : result IPCovSmearing :=
  match get_cov_matrix file_para ipt ieta with
  | Ok m =>
      let cov := mat_scale m smear_mult in
      let self := set_fCovarianceMatrices (insert2 ipt ieta cov) self in
      let self := set_fSmearingMatrices (insert2 ipt ieta (matrixL (llt cov))) self in
      Ok self
  | Fail (invalid_argument _) => Ok (print (no_smearing_message ipt ieta) self)
  | Fail e => Fail e
  end.

Definition Init (self : IPCovSmearing) : result IPCovSmearing :=
  let self :=
    set_bins
      (ptbins self ++ map IZR (10 :: 20 :: 50 :: 100 :: 200 :: 250 :: 500 :: 750 :: nil))
      (etabins self ++ (0.0 :: 0.4 :: 0.8 :: 1.05 :: 1.5 :: 1.7 :: 2.0 :: 2.25 :: 2.7 :: nil)%R)
      self in
  let pt_bin_max := Z.of_nat (length (ptbins self)) in
  let eta_bins_max := Z.of_nat (length (etabins self)) in
  for_each
    (fun ipt => for_each (Init_bin ipt) (seqZ 0 eta_bins_max))
    (seqZ (-1) (pt_bin_max + 1)) self.
End Init.

(** ** Bin lookup *)

Section BinScan.
Context {A : Type} (gt : A -> A -> bool).

(** [for (i = ...; i < edges.size(); i++) if (x > edges.at(i)) bin = i;] *)
Fixpoint scan_bins (i : Z) (edges : list A) (x : A) (bin : Z) : Z :=
  match edges with
  | nil => bin
  | e :: rest => scan_bins (i + 1) rest x (if gt x e then i else bin)
  end.

Definition find_bin (edges : list A) (x : A) : Z := scan_bins 0 edges x (-1).
End BinScan.

Definition Rgtb (x y : R) : bool := if Rgt_dec x y then true else false.
Definition Rgeb (x y : R) : bool := if Rge_dec x y then true else false.
Definition Reqb (x y : R) : bool := if Req_dec_T x y then true else false.

(** The same scan on binary64 values, with the edges as the compiler reads
    the literals of [Init]. *)
Module Doubles.
Import Floats.
#[local] Set Warnings "-inexact-float".
Definition gt (x y : float) : bool := PrimFloat.ltb y x.
Definition ptbins : list float :=
  (10 :: 20 :: 50 :: 100 :: 200 :: 250 :: 500 :: 750 :: nil)%float.
Definition etabins : list float :=
  (0.0 :: 0.4 :: 0.8 :: 1.05 :: 1.5 :: 1.7 :: 2.0 :: 2.25 :: 2.7 :: nil)%float.
Definition ptbin_of (pt : float) : Z := find_bin gt ptbins pt.
Definition etabin_of (eta : float) : Z := find_bin gt etabins (PrimFloat.abs eta).
End Doubles.

(** ** getValidBins *)

(** The recursion is unfolded at most [fuel] times; a call that needs more
    is [still_running].  The members are returned as the call left them,
    also when it throws. *)
Fixpoint getValidBins (fuel : nat) (ptbin etabin : Z) (self : IPCovSmearing)
  : result (Z * Z) * IPCovSmearing :=
  match fuel with
  | O => (Fail still_running, self)
  | S fuel =>
      (* fSmearingMatrices[ptbin] creates an empty entry for a new ptbin *)
      let pt_mats := default ∅ (fSmearingMatrices self !! ptbin) in
      let self := set_fSmearingMatrices (insert ptbin pt_mats) self in
      match pt_mats !! etabin with
      | None =>
          if etabin =? 0 then
            (Fail (logic_error ("no eta bins for pt bin: " +:+ pretty etabin)), self)
          else
            let self := set_fNBinMisses Z.succ self in
            if etabin - 1 <? INT_MIN then (Fail signed_overflow, self)
            else getValidBins fuel ptbin (etabin - 1) self
      | Some _ => (Ok (ptbin, etabin), self)
      end
  end.

Definition getRandomVector (g : RandomGenerator) : TrackVector * RandomGenerator :=
  let pars : TrackVector := fun iii => draws g (position g + iii)%nat in
  (pars, {| draws := draws g; position := (position g + 5)%nat |}).

(** ** Candidates *)

(** ROOT's [TLorentzVector], in the coordinates through which the module
    reads it ([Pt], [Eta], [Phi], [M]) and writes it ([SetPtEtaPhiM], which
    takes the absolute value of its first argument); [Px] and [Py] are the
    Cartesian components of the same vector.  The coordinates are kept as
    they were written: ROOT stores the Cartesian components, from which an
    angle is read back up to a multiple of 2*pi. *)
Record TLorentzVector : Type := {
  Pt : R;
  Eta : R;
  Phi : R;
  M : R
}.

Section Kinematics.
Local Open Scope R_scope.

Definition Px (v : TLorentzVector) : R := Pt v * cos (Phi v).
Definition Py (v : TLorentzVector) : R := Pt v * sin (Phi v).
Definition SetPtEtaPhiM (pt eta phi m : R) : TLorentzVector :=
  {| Pt := Rabs pt; Eta := eta; Phi := phi; M := m |}.

(** [std::atan2(0, -1)] *)
Definition pi : R := PI.
End Kinematics.

(** Candidates live in the factory's store and are named by their address. *)
Abbreviation address := positive.

(** The cells of [trkCov] are named by the enumerator [a##b] of the pair
    (row [a], column [b]) they hold. *)
Abbreviation TrkCovCell := (nat * nat)%type.

(** The fields of [Candidate] the module touches.  [fArray] is the array
    behind [GetCandidates()]. *)
Record Candidate : Type := {
  Momentum : TLorentzVector;
  Charge : Z;
  Xd : R;
  Yd : R;
  Zd : R;
  Dxy : R;
  SDxy : R;
  trkPar : nat -> R;
  trkCov : TrkCovCell -> R;
  fArray : list address
}.

Abbreviation Store := (gmap address Candidate).

(** Modelled from the spec: [Candidate::Clone], defined in
    [classes/DelphesClasses.cc], which is not among the sources.  The spec
    has the smeared track a copy that is never the same identity as the
    input: the factory hands out an unused address and every field,
    the arrays of parameters and of sub-candidates included, is copied
    there by value. *)
Definition Clone (store : Store) (this : Candidate) : address * Store :=
  let object := fresh (dom store) in
  (object, <[object := this]> store).

(** Modelled from the spec: the macros [TRKCOV_TOARRAY] and
    [TRKCOV_2TOARRAY] of [classes/flavortag/track_set_macros.hh], which is
    not among the sources.  The spec reads the d0 uncertainty from the
    cell [D0D0] as the entry (d0, d0) of the bin's matrix: the macro stores
    [cov(a, b)] in the cell [a##b]. *)
Definition TRKCOV_TOARRAY (a b : nat) (cov : CovMatrix)
    (cov_array : TrkCovCell -> R) : TrkCovCell -> R :=
  fun cell => if decide (cell = (a, b)) then cov a b else cov_array cell.
Definition TRKCOV_2TOARRAY (a : nat) := TRKCOV_TOARRAY a a.

Section SetCovariance.
Import TrackParam.

Definition set_covariance (cov_array : TrkCovCell -> R) (cov : CovMatrix)
  : TrkCovCell -> R :=
  let cov_array := TRKCOV_2TOARRAY D0 cov cov_array in

  let cov_array := TRKCOV_2TOARRAY Z0 cov cov_array in
  let cov_array := TRKCOV_TOARRAY Z0 D0 cov cov_array in

  let cov_array := TRKCOV_2TOARRAY PHI cov cov_array in
  let cov_array := TRKCOV_TOARRAY PHI D0 cov cov_array in
  let cov_array := TRKCOV_TOARRAY PHI Z0 cov cov_array in

  let cov_array := TRKCOV_2TOARRAY THETA cov cov_array in
  let cov_array := TRKCOV_TOARRAY THETA D0 cov cov_array in
  let cov_array := TRKCOV_TOARRAY THETA Z0 cov cov_array in
  let cov_array := TRKCOV_TOARRAY THETA PHI cov cov_array in

  let cov_array := TRKCOV_2TOARRAY QOVERP cov cov_array in
  let cov_array := TRKCOV_TOARRAY QOVERP D0 cov cov_array in
  let cov_array := TRKCOV_TOARRAY QOVERP Z0 cov cov_array in
  let cov_array := TRKCOV_TOARRAY QOVERP PHI cov cov_array in
  let cov_array := TRKCOV_TOARRAY QOVERP THETA cov cov_array in
  cov_array.
End SetCovariance.

(** ** Process *)

Section Smearing.
Local Open Scope R_scope.
Import TrackParam.

(** Lines 192-229: the track in the basis of the parametrisation.  The
    momentum and the charge are the generated particle's, the
    displacement is the track's. *)
Definition track_parameters (particle track : Candidate) : TrackVector :=
  let candidateMomentum := Momentum particle in
  let charge := Charge particle in
  let eta := Eta candidateMomentum in
  let pt := Pt candidateMomentum in
  let phi := Phi candidateMomentum in
  let px := Px candidateMomentum in
  let py := Py candidateMomentum in
  let xd := Xd track in
  let yd := Yd track in
  let zd := Zd track in
  let qoverp := IZR charge / (pt * cosh eta) in
  let theta := 2 * atan (exp (- eta)) in
  let d0 := (xd * py - yd * px) / pt in
  let z0 := zd in
  vec_of d0 z0 phi theta qoverp.

(** Lines 231-239. *)
Definition ptbin_of (self : IPCovSmearing) (pt : R) : Z :=
  find_bin Rgtb (ptbins self) pt.
Definition etabin_of (self : IPCovSmearing) (eta : R) : Z :=
  find_bin Rgtb (etabins self) (Rabs eta).

(** Lines 256-285: the writes into the clone, in the order of the code.
    The assertion is compiled in (no [NDEBUG]) and stops the program before
    the momentum is assigned.  Three operations can leave the real numbers:
    - [d0] and [qoverp] were divided by the particle's pt, so that at
      pt = 0 the vector [smeared] holds no real numbers;
    - [charge/(smeared(QOVERP)*cosh(eta))] with a divisor 0 is a NaN for
      charge 0, which fails the assertion, and otherwise an infinity with
      the sign of that zero, which the real numbers do not have;
    - [std::log] of [tan(theta/2) <= 0] is a NaN or an infinity, with which
      the code sets the momentum (at a pole of [tan], which no double is,
      the [tan] of the real numbers is 0 and the model stops as well). *)
Definition fill_smeared_track (particle smeared_track : Candidate)
    (smeared : TrackVector) (cov : CovMatrix) : result Candidate :=
  let candidateMomentum := Momentum particle in
  let charge := Charge particle in
  let eta := Eta candidateMomentum in
  let phi := Phi candidateMomentum in
  let phid0 := phi - pi / 2 in
  let trkPar := fun iii => if (iii <? 5)%nat then smeared iii
                           else trkPar smeared_track iii in
  let cov_array := set_covariance (trkCov smeared_track) cov in
  if Reqb (Pt candidateMomentum) 0 then Fail not_finite else
  if Reqb (smeared QOVERP * cosh eta) 0 then
    (if (charge =? 0)%Z then Fail assertion_failed else Fail not_finite)
  else
  let smeared_pt := IZR charge / (smeared QOVERP * cosh eta) in
  if Rgeb smeared_pt 0 then
    if negb (Rgtb (tan (smeared THETA / 2)) 0) then Fail not_finite else
    let smeared_eta := - ln (tan (smeared THETA / 2)) in
    let smeared_d0 := smeared D0 in
    let phid0_reco := phid0 + (smeared PHI - phi) in
    Ok {| Momentum :=
            SetPtEtaPhiM smeared_pt smeared_eta (smeared PHI) (M candidateMomentum);
          Charge := Charge smeared_track;
          Xd := smeared_d0 * cos phid0_reco;
          Yd := smeared_d0 * sin phid0_reco;
          Zd := smeared Z0;
          Dxy := smeared_d0;
          SDxy := sqrt (Rabs (cov_array (D0, D0)));
          trkPar := trkPar;
          trkCov := cov_array;
          fArray := fArray smeared_track |}
  else Fail assertion_failed.
End Smearing.

(** What [Process] works on: the module, the candidates, the output array. *)
Record World : Type := {
  module : IPCovSmearing;
  store : Store;
  fOutputArray : list address
}.

Definition fetch (store : Store) (p : address) : result Candidate :=
  match store !! p with
  | Some c => Ok c
  | None => Fail null_dereference
  end.

Definition set_fArray (l : list address) (c : Candidate) : Candidate :=
  {| Momentum := Momentum c; Charge := Charge c;
     Xd := Xd c; Yd := Yd c; Zd := Zd c; Dxy := Dxy c; SDxy := SDxy c;
     trkPar := trkPar c; trkCov := trkCov c; fArray := l |}.

(** The body of the [while] loop of [Process], for the track at [track].
    [fuel] bounds the depth of the recursion of [getValidBins]. *)
Definition smear_track (fuel : nat) (track : address) (w : World) : result World :=
  this ← fetch (store w) track;
  (* track->GetCandidates()->At(0) *)
  particle ← match fArray this with
             | p :: _ => fetch (store w) p
             | nil => Fail null_dereference
             end;
  if negb (length (fArray particle) =? 0)%nat then Fail assertion_failed else
  let self := module w in
  let pt := Pt (Momentum particle) in
  let eta := Eta (Momentum particle) in
  let ptbin := ptbin_of self pt in
  let etabin := etabin_of self eta in
  (* Now do the smearing *)
  let '(found, self) := getValidBins fuel ptbin etabin self in
  bins ← found;
  smearing_matrix ← at2 (fSmearingMatrices self) bins.1 bins.2;
  let track_parameters := track_parameters particle this in
  let '(rand, generator) := getRandomVector (fRandomGenerator self) in
  let self := set_fRandomGenerator generator self in
  let smearing := mat_vec smearing_matrix rand in
  let smeared := vec_add smearing track_parameters in
  let '(smeared_track, store) := Clone (store w) this in
  object ← fetch store smeared_track;
  cov ← at2 (fCovarianceMatrices self) bins.1 bins.2;
  filled ← fill_smeared_track particle object smeared cov;
  (* array->Clear(); array->Add(track); *)
  let filled := set_fArray (track :: nil) filled in
  Ok {| module := self;
        store := <[smeared_track := filled]> store;
        fOutputArray := fOutputArray w ++ smeared_track :: nil |}.

(** [Process]: every track of the input array in turn. *)
Fixpoint Process (fuel : nat) (fInputArray : list address) (w : World) : result World :=
  match fInputArray with
  | nil => Ok w
  | track :: rest => w' ← smear_track fuel track w; Process fuel rest w'
  end.

(** ** Finish *)

(** The summary line of [Finish]; the count and the words are printed
    without a space between them. *)
Definition bin_misses_message (misses : Z) : string :=
  ("PROBLEM: " +:+ pretty misses +:+ "bin misses in track smearing")%string.

Definition Finish (self : IPCovSmearing) : IPCovSmearing :=
  if fNBinMisses self =? 0 then self
  else print (bin_misses_message (fNBinMisses self)) self.

(** * HDF5Writer: the files it names and the tracks it writes

    A shallow embedding of the helpers of [modules/HDF5Writer.cc] that do
    not go through the HDF5 library: the names of the files [Init] creates,
    and the secondary-vertex tracks of a jet, each written once.  The
    overlap counter is counted in [Z], and [std::sort] is a parameter. *)

Module HDF5Writer.

(** ** The names of the output files *)

(** [chars.find(c) != npos] *)
Fixpoint one_of (chars : string) (c : ascii) : bool :=
  match chars with
  | EmptyString => false
  | String a rest => Ascii.eqb a c || one_of rest c
  end.

(** [s.find_last_of(chars)]; [None] is [npos]. *)
Fixpoint find_last_of (chars s : string) : option nat :=
  match s with
  | EmptyString => None
  | String c rest =>
      match find_last_of chars rest with
      | Some pos => Some (S pos)
      | None => if one_of chars c then Some 0%nat else None
      end
  end.

Definition remove_extension (filename : string) : string :=
  match find_last_of "." filename with
  | None => filename
  | Some lastdot => substring 0 lastdot filename
  end.

(** [GetString(name, value)]: the configured string, [value] without one. *)
Definition GetString (conf : gmap string string) (name value : string) : string :=
  match conf !! name with
  | Some configured => configured
  | None => value
  end.

(** The files [Init] creates: the HDF5 file, which it truncates, and the
    text file, when it opens one. *)
Record Files : Type := {
  m_out_file : string;
  m_output_stream : option string
}.

Definition Init (conf : gmap string string) (OutputFileName : string) : Files :=
  let output_file := remove_extension OutputFileName in
  let output_ext := GetString conf "OutputExtension" ".ntuple.h5" in
  let hdf_out := (output_file +:+ output_ext)%string in
  let text_file_ext := GetString conf "TextFileExtension" "" in
  {| m_out_file := hdf_out;
     m_output_stream :=
       if (0 <? String.length text_file_ext)%nat
       then Some (output_file +:+ text_file_ext)%string
       else None |}.

(** ** The tracks of a jet *)

(** The members of [SecondaryVertexTrack], of [::SecondaryVertex] and of a
    jet [Candidate] that the writer reads, as it reads them: the classes
    are declared in classes/flavortag/SecondaryVertex.hh and
    classes/DelphesClasses.h, and only these members matter here.
    [vx_deta] and [vx_dphi] are the vertex's [deta] and [dphi], and [Mag]
    is the value of [vx.Mag()]. *)
Record SecondaryVertexTrack : Type := {
  d0 : R; z0 : R; d0err : R; z0err : R; pt : R; dphi : R; deta : R; weight : R;
  delphes_track : address
}.
Record SecondaryVertex : Type := {
  mass : R; Mag : R; vx_deta : R; vx_dphi : R; Lsig : R;
  tracks_along_jet : list SecondaryVertexTrack
}.
Record Candidate : Type := {
  primaryVertexTracks : list SecondaryVertexTrack;
  secondaryVertices : list SecondaryVertex
}.

(** The records of namespace [out], with their converting constructors. *)
Module out.
Record VertexTrack : Type := {
  d0 : R; z0 : R; d0_uncertainty : R; z0_uncertainty : R; pt : R;
  delta_phi_jet : R; delta_eta_jet : R; weight : R
}.
Definition VertexTrack_from (tk : HDF5Writer.SecondaryVertexTrack) : VertexTrack :=
  {| d0 := HDF5Writer.d0 tk; z0 := HDF5Writer.z0 tk;
     d0_uncertainty := d0err tk; z0_uncertainty := z0err tk;
     pt := HDF5Writer.pt tk;
     delta_phi_jet := dphi tk; delta_eta_jet := deta tk;
     weight := HDF5Writer.weight tk |}.
(** [operator<] *)
Definition VertexTrack_lt (v1 v2 : VertexTrack) : Prop := (d0 v1 < d0 v2)%R.

Record SecondaryVertex : Type := {
  mass : R; displacement : R; vx_delta_eta_jet : R; vx_delta_phi_jet : R;
  displacement_significance : R
}.
Definition SecondaryVertex_from (vx : HDF5Writer.SecondaryVertex) : SecondaryVertex :=
  {| mass := HDF5Writer.mass vx; displacement := Mag vx;
     vx_delta_eta_jet := vx_deta vx; vx_delta_phi_jet := vx_dphi vx;
     displacement_significance := Lsig vx |}.

Record CombinedSecondaryTrack : Type := {
  track : VertexTrack;
  vertex : SecondaryVertex
}.
Definition CombinedSecondaryTrack_from (tk : HDF5Writer.SecondaryVertexTrack)
    (vx : HDF5Writer.SecondaryVertex) : CombinedSecondaryTrack :=
  {| track := VertexTrack_from tk; vertex := SecondaryVertex_from vx |}.
(** [operator<] *)
Definition CombinedSecondaryTrack_lt (t1 t2 : CombinedSecondaryTrack) : Prop :=
  VertexTrack_lt (track t1) (track t2).
End out.

(** [std::map::count] and [std::map::emplace], which keeps an entry that is
    already there. *)
Definition count {A : Type} (key : address) (m : gmap address A) : nat :=
  match m !! key with
  | Some _ => 1%nat
  | None => 0%nat
  end.
Definition emplace {A : Type} (key : address) (value : A) (m : gmap address A)
  : gmap address A :=
  match m !! key with
  | Some _ => m
  | None => <[key := value]> m
  end.

(** The locals of [get_sorted_secondary_tracks]. *)
Record Locals : Type := {
  used : gmap address R;
  n_overlap : Z;
  sorted_secondary_tracks : list out.CombinedSecondaryTrack
}.

(** The body of the inner loop. *)
Definition visit_track (vx : SecondaryVertex) (locals : Locals)
    (trk : SecondaryVertexTrack) : Locals :=
  if (count (delphes_track trk) (used locals) =? 0)%nat then
    {| used := emplace (delphes_track trk) (weight trk) (used locals);
       n_overlap := n_overlap locals;
       sorted_secondary_tracks :=
         sorted_secondary_tracks locals ++ out.CombinedSecondaryTrack_from trk vx :: nil |}
  else
    {| used := used locals;
       n_overlap := n_overlap locals + 1;
       sorted_secondary_tracks := sorted_secondary_tracks locals |}.

(** The two loops: the vertices from the last to the first, the tracks of
    each in their order. *)
Definition visit_vertices (jet : Candidate) : Locals :=
  fold_left
    (fun locals vx => fold_left (visit_track vx) (tracks_along_jet vx) locals)
    (rev (secondaryVertices jet))
    {| used := ∅; n_overlap := 0; sorted_secondary_tracks := nil |}.

Section Sorting.
(** [std::sort] with the [operator<] of the elements. *)
Variable sort : list out.CombinedSecondaryTrack -> list out.CombinedSecondaryTrack.

Definition get_sorted_secondary_tracks (jet : Candidate)
  : list out.CombinedSecondaryTrack :=
  sort (sorted_secondary_tracks (visit_vertices jet)).
End Sorting.

End HDF5Writer.

(** * Vocabulary of the properties *)

(** What the statements below are written with: the closed forms of the
    loops of [Init] and of the recursion of [getValidBins], the readings of
    one turn of [Process], and the data of the examples. *)

(** ** Diagonal matrices *)

(** [diag(d 0, ..., d 4)] *)
Definition diag (d : nat -> R) : CovMatrix :=
  fun i j => if Nat.eqb i j then d i else 0%R.

(** The diagonals of [gev_from_mev] and of [hack_matrix]. *)
Definition gev_factor : nat -> R := vec_of 1 1 1 1 1000.
Definition hack_factor : nat -> R := vec_of 2 2 1 1 1.

(** The indices the low-momentum correction inflates. *)
Definition inflated (k : nat) : Prop := k = TrackParam.D0 ∨ k = TrackParam.Z0.

(** ** The loops of Init in closed form *)

Section InitSpec.
Variable llt : CovMatrix -> LLT.
Variable file_para : TFile.
Variable smear_mult : R.

(** The matrix Init stores for a bin, when the file has one for it. *)
Definition stored_covariance (ipt ieta : Z) : option CovMatrix :=
  match get_cov_matrix file_para ipt ieta with
  | Ok m => Some (mat_scale m smear_mult)
  | Fail _ => None
  end.

(** What one turn does to one of the two maps ([g] is the identity for the
    covariances and the Cholesky factor for the smearing matrices), and the
    line it prints. *)
Definition store_bin (g : CovMatrix -> CovMatrix) (ipt ieta : Z) (m : BinMap)
  : BinMap :=
  match stored_covariance ipt ieta with
  | Some cov => insert2 ipt ieta (g cov) m
  | None => m
  end.

Definition report_bin (ipt ieta : Z) : list string :=
  match stored_covariance ipt ieta with
  | Some _ => nil
  | None => no_smearing_message ipt ieta :: nil
  end.

(** One turn of the inner loop, which never fails. *)
Definition Init_bin_done (ipt ieta : Z) (self : IPCovSmearing) : IPCovSmearing :=
  {| fNBinMisses := fNBinMisses self;
     fSmearingMatrices :=
       store_bin (fun cov => matrixL (llt cov)) ipt ieta (fSmearingMatrices self);
     fCovarianceMatrices := store_bin (fun cov => cov) ipt ieta (fCovarianceMatrices self);
     ptbins := ptbins self; etabins := etabins self;
     fRandomGenerator := fRandomGenerator self;
     sout := sout self ++ report_bin ipt ieta |}.

(** The two loops, over the module and over one of the two maps. *)
Definition Init_loops (ipts ietas : list Z) (self : IPCovSmearing) : IPCovSmearing :=
  fold_left (fun s ipt => fold_left (fun s ieta => Init_bin_done ipt ieta s) ietas s)
    ipts self.

Definition store_bins (g : CovMatrix -> CovMatrix) (ipts ietas : list Z) (m : BinMap)
  : BinMap :=
  fold_left (fun m ipt => fold_left (fun m ieta => store_bin g ipt ieta m) ietas m)
    ipts m.
End InitSpec.

(** The edges [Init] appends. *)
Definition pt_edges : list R :=
  map IZR (10 :: 20 :: 50 :: 100 :: 200 :: 250 :: 500 :: 750 :: nil).
Definition eta_edges : list R :=
  (0.0 :: 0.4 :: 0.8 :: 1.05 :: 1.5 :: 1.7 :: 2.0 :: 2.25 :: 2.7 :: nil)%R.

(** The module [Init] makes of a freshly constructed one. *)
Definition initialised (llt : CovMatrix -> LLT) (file_para : TFile) (smear_mult : R)
    (rng : RandomGenerator) : IPCovSmearing :=
  Init_loops llt file_para smear_mult (seqZ (-1) 9) (seqZ 0 9)
    (set_bins pt_edges eta_edges (new_IPCovSmearing rng)).

Arguments initialised : simpl never.

(** The bins the two loops visit. *)
Definition bin_in_range (ipt ieta : Z) : Prop := (-1 <= ipt < 8) ∧ (0 <= ieta < 9).

#[global] Instance bin_in_range_dec ipt ieta : Decision (bin_in_range ipt ieta).
Proof. unfold bin_in_range. apply _. Defined.

(** The file has no matrix under the name [get_cov_matrix] forms for the bin. *)
Definition absent (file : TFile) (ipt ieta : Z) : Prop :=
  file !! matrix_name (if ipt =? -1 then 0 else ipt) ieta = None.

(** ** The recursion of getValidBins in closed form *)

(** The recursion of [getValidBins] seen from the row of one pt bin: the
    eta bin it ends on (or how it fails) and the number of misses counted. *)
Fixpoint fallback (fuel : nat) (pt_mats : gmap Z CovMatrix) (etabin : Z)
  : result Z * Z :=
  match fuel with
  | O => (Fail still_running, 0)
  | S fuel =>
      match pt_mats !! etabin with
      | None =>
          if etabin =? 0 then
            (Fail (logic_error ("no eta bins for pt bin: " +:+ pretty etabin)), 0)
          else if etabin - 1 <? INT_MIN then (Fail signed_overflow, 1)
          else (fst (fallback fuel pt_mats (etabin - 1)),
                snd (fallback fuel pt_mats (etabin - 1)) + 1)
      | Some _ => (Ok etabin, 0)
      end
  end.

(** [m[ptbin]], empty when the key is new. *)
Definition row (m : BinMap) (ptbin : Z) : gmap Z CovMatrix := default ∅ (m !! ptbin).

(** Everything of the module a call of [getValidBins] leaves alone. *)
Definition same_but_misses (a b : IPCovSmearing) : Prop :=
  (forall p, row (fSmearingMatrices a) p = row (fSmearingMatrices b) p)
  ∧ fCovarianceMatrices a = fCovarianceMatrices b
  ∧ ptbins a = ptbins b ∧ etabins a = etabins b
  ∧ fRandomGenerator a = fRandomGenerator b ∧ sout a = sout b.

(** ** The result of a scan *)

(** [b] is the greatest index whose edge [x] exceeds, or -1 when [x]
    exceeds no edge. *)
Definition greatest_exceeded {A : Type} (gt : A -> A -> bool)
    (edges : list A) (x : A) (b : Z) : Prop :=
  (b = -1 ∧ forall (i : nat) e, edges !! i = Some e -> gt x e = false)
  ∨ (0 <= b ∧ exists e, edges !! Z.to_nat b = Some e ∧ gt x e = true
     ∧ forall (j : nat) e', edges !! j = Some e' -> gt x e' = true -> Z.of_nat j <= b).

(** [b] is an index of [edges], [x] exceeds the edge at [b], and no edge at
    a greater index is exceeded by [x]. *)
Definition greatest_edge_exceeded (edges : list R) (x : R) (b : Z) : Prop :=
  0 <= b
  ∧ (exists e, edges !! Z.to_nat b = Some e ∧ (x > e)%R)
  ∧ forall (j : nat) e', edges !! j = Some e' -> (x > e')%R -> Z.of_nat j <= b.

(** ** One turn of Process *)

(** The candidate at [track] is [this]; its first sub-candidate is the
    generated [particle], which has no sub-candidate of its own. *)
Definition track_of (w : World) (track : address) (this particle : Candidate) : Prop :=
  store w !! track = Some this
  ∧ (exists p, head (fArray this) = Some p ∧ store w !! p = Some particle)
  ∧ fArray particle = nil.

(** [getValidBins], called as [Process] calls it for [particle], returns
    [bins] and leaves the module as [self']. *)
Definition resolves (fuel : nat) (w : World) (particle : Candidate)
    (bins : Z * Z) (self' : IPCovSmearing) : Prop :=
  getValidBins fuel
    (ptbin_of (module w) (Pt (Momentum particle)))
    (etabin_of (module w) (Eta (Momentum particle))) (module w)
  = (Ok bins, self').

(** The vector [smeared] of [Process]. *)
Definition smeared_parameters (l : CovMatrix) (g : RandomGenerator)
    (particle this : Candidate) : TrackVector :=
  vec_add (mat_vec l (fst (getRandomVector g))) (track_parameters particle this).

(** [smeared_pt] of [Process], when the division is one of real numbers:
    when the divisor is not 0. *)
Definition reconstructed_pt (particle : Candidate) (smeared : TrackVector)
  : option R :=
  if Reqb (smeared TrackParam.QOVERP * cosh (Eta (Momentum particle))) 0 then None
  else Some (IZR (Charge particle)
             / (smeared TrackParam.QOVERP * cosh (Eta (Momentum particle))))%R.

(** ** Data of the examples *)

(** A matrix to put in a file. *)
Definition counting_matrix : CovMatrix := fun i j => INR (i + j + 1).

(** A file whose only matrix, for bin (0, 0), is minus the identity, and
    the covariance [Init] stores for that bin with [smear_mult = 1]. *)
Definition indefinite_file : TFile :=
  {[ matrix_name 0 0 := mat_scale Identity (-1) ]}.
Definition indefinite_covariance : CovMatrix :=
  mat_scale (convert_units_to_gev (mat_scale Identity (-1))) 1.

(** A generator that draws zeros, and a stand-in for [llt]. *)
Definition example_rng : RandomGenerator := {| draws := fun _ => 0%R; position := 0 |}.
Definition example_llt (cov : CovMatrix) : LLT := {| matrixL := cov; info := Success |}.

(** A module with one cached bin, (1, 0). *)
Definition example_module : IPCovSmearing :=
  set_fCovarianceMatrices (fun _ => {[ 1 := {[ 0 := Identity ]} ]})
    (set_fSmearingMatrices (fun _ => {[ 1 := {[ 0 := Identity ]} ]})
       (set_bins pt_edges eta_edges (new_IPCovSmearing example_rng))).

(** The track of the spec's scenario: charge +1, pt = 50, eta = 0, phi = 0,
    displacement (0.001, 0, 0). *)
Definition scenario_particle : Candidate :=
  {| Momentum := {| Pt := 50; Eta := 0; Phi := 0; M := 0 |};
     Charge := 1; Xd := 0; Yd := 0; Zd := 0; Dxy := 0; SDxy := 0;
     trkPar := fun _ => 0%R; trkCov := fun _ => 0%R; fArray := nil |}.
Definition scenario_track : Candidate :=
  {| Momentum := {| Pt := 50; Eta := 0; Phi := 0; M := 0 |};
     Charge := 1; Xd := 0.001; Yd := 0; Zd := 0; Dxy := 0; SDxy := 0;
     trkPar := fun _ => 0%R; trkCov := fun _ => 0%R; fArray := 2%positive :: nil |}.

(** A track with pt = 50 and eta = 0.5 whose displacement (0.001, 0, 0)
    lies along its momentum, and the world it makes with [example_module]. *)
Definition example_particle : Candidate :=
  {| Momentum := {| Pt := 50; Eta := 0.5; Phi := 0; M := 0 |};
     Charge := 1; Xd := 0; Yd := 0; Zd := 0; Dxy := 0; SDxy := 0;
     trkPar := fun _ => 0%R; trkCov := fun _ => 0%R; fArray := nil |}.
Definition example_track : Candidate :=
  {| Momentum := {| Pt := 50; Eta := 0.5; Phi := 0; M := 0 |};
     Charge := 1; Xd := 0.001; Yd := 0; Zd := 0; Dxy := 0; SDxy := 0;
     trkPar := fun _ => 0%R; trkCov := fun _ => 0%R; fArray := 2%positive :: nil |}.
Definition example_world : World :=
  {| module := example_module;
     store := {[ 1%positive := example_track; 2%positive := example_particle ]};
     fOutputArray := nil |}.

(** The example world with another generator and another pair of candidates
    of pt = 50 and eta = 0.5. *)
Definition example_world_with (g : RandomGenerator) (particle track : Candidate) : World :=
  {| module := set_fRandomGenerator g example_module;
     store := {[ 1%positive := track; 2%positive := particle ]};
     fOutputArray := nil |}.

(** A generator whose draws turn the sign of qoverp of [example_particle]. *)
Definition flipping_rng : RandomGenerator :=
  {| draws := fun _ => (- 2 / (50 * cosh 0.5))%R; position := 0 |}.

(** A neutral particle and a generator that draws ones. *)
Definition neutral_particle : Candidate :=
  {| Momentum := {| Pt := 50; Eta := 0.5; Phi := 0; M := 0 |};
     Charge := 0; Xd := 0; Yd := 0; Zd := 0; Dxy := 0; SDxy := 0;
     trkPar := fun _ => 0%R; trkCov := fun _ => 0%R; fArray := nil |}.
Definition neutral_track : Candidate :=
  {| Momentum := {| Pt := 50; Eta := 0.5; Phi := 0; M := 0 |};
     Charge := 0; Xd := 0; Yd := 0; Zd := 0; Dxy := 0; SDxy := 0;
     trkPar := fun _ => 0%R; trkCov := fun _ => 0%R; fArray := 2%positive :: nil |}.
Definition ones_rng : RandomGenerator := {| draws := fun _ => 1%R; position := 0 |}.
Definition neutral_world : World := example_world_with ones_rng neutral_particle neutral_track.

(** ** Further vocabulary *)

(** [a(i,j) = a(j,i)] on the 25 coefficients. *)
Definition symmetric (a : CovMatrix) : Prop :=
  forall i j, (i < 5)%nat -> (j < 5)%nat -> a i j = a j i.

(** The name [get_cov_matrix] asks the file for, and the bins that are read
    under their own number. *)
Definition object_name (ptbin etabin : Z) : string :=
  matrix_name (if ptbin =? -1 then 0 else ptbin) etabin.
Definition named_bins : list (Z * Z) :=
  ipt ← seqZ 0 8; ieta ← seqZ 0 9; [(ipt, ieta)].

(** The diagonal a loaded matrix is multiplied with on both sides. *)
Definition bin_factor (ptbin : Z) (i : nat) : R :=
  if ptbin =? -1 then (hack_factor i * gev_factor i)%R else gev_factor i.

(** ** File names and the tracks of a jet *)

(** No character of the string is a dot. *)
Fixpoint dot_free (s : string) : Prop :=
  match s with
  | EmptyString => True
  | String c rest => c ≠ "."%char ∧ dot_free rest
  end.

(** The tracks of a jet's secondary vertices, each with its vertex, in the
    order the loops of [get_sorted_secondary_tracks] meet them; the address
    of such an entry, the record written for it, and what it is to be the
    first entry of its address. *)
Definition jet_tracks (jet : HDF5Writer.Candidate)
  : list (HDF5Writer.SecondaryVertexTrack * HDF5Writer.SecondaryVertex) :=
  vx ← rev (HDF5Writer.secondaryVertices jet);
  trk ← HDF5Writer.tracks_along_jet vx; [(trk, vx)].
Definition pointer (c : HDF5Writer.SecondaryVertexTrack * HDF5Writer.SecondaryVertex)
  : address := HDF5Writer.delphes_track c.1.
Definition combined (c : HDF5Writer.SecondaryVertexTrack * HDF5Writer.SecondaryVertex)
  : HDF5Writer.out.CombinedSecondaryTrack :=
  HDF5Writer.out.CombinedSecondaryTrack_from c.1 c.2.
Definition first_of_its_track
    (c : HDF5Writer.SecondaryVertexTrack * HDF5Writer.SecondaryVertex)
    (l : list (HDF5Writer.SecondaryVertexTrack * HDF5Writer.SecondaryVertex)) : Prop :=
  exists before after, l = before ++ c :: after ∧ pointer c ∉ pointer <$> before.

(** One turn of the inner loop of [get_sorted_secondary_tracks], on a track
    paired with its vertex. *)
Definition visit (locals : HDF5Writer.Locals)
    (c : HDF5Writer.SecondaryVertexTrack * HDF5Writer.SecondaryVertex)
  : HDF5Writer.Locals :=
  HDF5Writer.visit_track c.2 locals c.1.

(** A sort by the [operator<] of the elements, and a jet whose two vertices
    share the track at address 2. *)
Definition example_sort : list HDF5Writer.out.CombinedSecondaryTrack ->
    list HDF5Writer.out.CombinedSecondaryTrack :=
  @merge_sort _
    (fun t1 t2 => ¬ HDF5Writer.out.CombinedSecondaryTrack_lt t2 t1)
    (fun t1 t2 => not_dec (Rlt_dec _ _)).
Definition example_vertex_track (d0 weight : R) (delphes_track : address)
  : HDF5Writer.SecondaryVertexTrack :=
  {| HDF5Writer.d0 := d0; HDF5Writer.z0 := 0; HDF5Writer.d0err := 1;
     HDF5Writer.z0err := 1; HDF5Writer.pt := 10; HDF5Writer.dphi := 0;
     HDF5Writer.deta := 0; HDF5Writer.weight := weight;
     HDF5Writer.delphes_track := delphes_track |}.
Definition example_vertex (tracks : list HDF5Writer.SecondaryVertexTrack)
  : HDF5Writer.SecondaryVertex :=
  {| HDF5Writer.mass := 1; HDF5Writer.Mag := 1; HDF5Writer.vx_deta := 0;
     HDF5Writer.vx_dphi := 0; HDF5Writer.Lsig := 1;
     HDF5Writer.tracks_along_jet := tracks |}.
Definition example_jet : HDF5Writer.Candidate :=
  {| HDF5Writer.primaryVertexTracks := nil;
     HDF5Writer.secondaryVertices :=
       example_vertex (example_vertex_track 3 0.2 1%positive
                       :: example_vertex_track 1 0.4 2%positive :: nil)
       :: example_vertex (example_vertex_track 1 0.6 2%positive
                          :: example_vertex_track 2 0.9 3%positive :: nil)
       :: nil |}.

(** * Properties *)

(** ** Coefficients of the two congruences *)

Ltac index5 i :=
  destruct i as [|[|[|[|[|?]]]]]; [ .. | exfalso; lia ].

Lemma diag_congruence_coeff (d : nat -> R) (m : CovMatrix) (i j : nat) :
  (i < 5)%nat -> (j < 5)%nat ->
  mat_mul (mat_mul (diag d) m) (diag d) i j = (d i * m i j * d j)%R.
Proof.
  intros Hi Hj. index5 i; index5 j; unfold mat_mul, sum5, diag; simpl; lra.
Qed.

Lemma convert_units_to_gev_coeff (m : CovMatrix) (i j : nat) :
  (i < 5)%nat -> (j < 5)%nat ->
  convert_units_to_gev m i j = (gev_factor i * m i j * gev_factor j)%R.
Proof.
  intros Hi Hj. index5 i; index5 j;
    unfold convert_units_to_gev, mat_mul, sum5, set_coeff, Identity, gev_factor;
    simpl; lra.
Qed.

Lemma do_low_pt_hack_coeff (m : CovMatrix) (i j : nat) :
  (i < 5)%nat -> (j < 5)%nat ->
  do_low_pt_hack m i j = (hack_factor i * m i j * hack_factor j)%R.
Proof.
  intros Hi Hj. index5 i; index5 j;
    unfold do_low_pt_hack, mat_mul, sum5, set_coeff, Identity, hack_factor, unct_mul;
    simpl; lra.
Qed.

(** ** What Init stores *)

Lemma lookup2_insert2 (m : BinMap) (i j i' j' : Z) (v : CovMatrix) :
  lookup2 (insert2 i j v m) i' j' =
  if decide (i = i' ∧ j = j') then Some v else lookup2 m i' j'.
Proof.
  unfold lookup2, insert2.
  destruct (decide (i = i')) as [->|Hi].
  - rewrite lookup_insert_eq. simpl.
    destruct (decide (j = j')) as [->|Hj].
    + rewrite lookup_insert_eq. rewrite decide_True; [done | auto].
    + rewrite lookup_insert_ne by done.
      rewrite decide_False by (intros [_ ?]; done).
      destruct (m !! i'); simpl; [done | apply lookup_empty].
  - rewrite lookup_insert_ne by done.
    rewrite decide_False by (intros [? _]; done). done.
Qed.

Lemma lookup2_empty (i j : Z) : lookup2 ∅ i j = None.
Proof. unfold lookup2. by rewrite lookup_empty. Qed.

Lemma get_cov_matrix_raises (file : TFile) (ptbin etabin : Z) (e : failure) :
  get_cov_matrix file ptbin etabin = Fail e -> exists what, e = invalid_argument what.
Proof.
  unfold get_cov_matrix. destruct (file !! _); intros H; [discriminate|].
  injection H as <-. eauto.
Qed.

Lemma for_each_total {S : Type} (body : Z -> S -> result S) (f : Z -> S -> S)
    (l : list Z) (s : S) :
  (forall i s, body i s = Ok (f i s)) ->
  for_each body l s = Ok (fold_left (fun s i => f i s) l s).
Proof.
  intros Hbody. revert s. induction l as [|i l IH]; intros s; simpl; [done|].
  rewrite Hbody. simpl. apply IH.
Qed.

Section InitFacts.
Variable llt : CovMatrix -> LLT.
Variable file_para : TFile.
Variable smear_mult : R.

Lemma Init_bin_total (ipt ieta : Z) (self : IPCovSmearing) :
  Init_bin llt file_para smear_mult ipt ieta self = Ok (Init_bin_done llt file_para smear_mult ipt ieta self).
Proof.
  unfold Init_bin, Init_bin_done, store_bin, report_bin, stored_covariance.
  destruct (get_cov_matrix file_para ipt ieta) as [m|e] eqn:Hget.
  - destruct self; simpl. unfold set_fSmearingMatrices, set_fCovarianceMatrices; simpl.
    by rewrite app_nil_r.
  - destruct (get_cov_matrix_raises _ _ _ _ Hget) as [what ->].
    destruct self; simpl. done.
Qed.

Lemma Init_loops_total (ipts ietas : list Z) (self : IPCovSmearing) :
  for_each (fun ipt => for_each (Init_bin llt file_para smear_mult ipt) ietas) ipts self
  = Ok (Init_loops llt file_para smear_mult ipts ietas self).
Proof.
  unfold Init_loops.
  apply (for_each_total _ (fun ipt s => fold_left (fun s ieta => Init_bin_done llt file_para smear_mult ipt ieta s) ietas s)).
  intros ipt s. apply for_each_total. intros. apply Init_bin_total.
Qed.

Lemma lookup2_store_bin g ipt ieta m i j :
  lookup2 (store_bin file_para smear_mult g ipt ieta m) i j =
  match (if decide (ipt = i ∧ ieta = j) then g <$> stored_covariance file_para smear_mult i j else None) with
  | Some cov => Some cov
  | None => lookup2 m i j
  end.
Proof.
  unfold store_bin.
  destruct (decide (ipt = i ∧ ieta = j)) as [[-> ->]|Hne].
  - destruct (stored_covariance file_para smear_mult i j); simpl; [|done].
    rewrite lookup2_insert2. by rewrite decide_True.
  - destruct (stored_covariance file_para smear_mult ipt ieta); simpl; [|done].
    rewrite lookup2_insert2. by rewrite decide_False.
Qed.

Lemma lookup2_store_row g ipt ietas m i j :
  lookup2 (fold_left (fun m ieta => store_bin file_para smear_mult g ipt ieta m) ietas m) i j =
  match (if decide (ipt = i ∧ j ∈ ietas) then g <$> stored_covariance file_para smear_mult i j else None) with
  | Some cov => Some cov
  | None => lookup2 m i j
  end.
Proof.
  revert m. induction ietas as [|ieta ietas IH]; intros m; simpl.
  - rewrite decide_False; [done|]. intros [_ H]. by apply not_elem_of_nil in H.
  - rewrite IH, lookup2_store_bin.
    destruct (g <$> stored_covariance file_para smear_mult i j) as [cov|]; [|by repeat case_decide].
    destruct (decide (ipt = i ∧ j ∈ ietas)) as [[Hi Hj]|Hout].
    + rewrite decide_True; [done|]. split; [done|]. apply elem_of_cons. by right.
    + destruct (decide (ipt = i ∧ ieta = j)) as [[Hi Hj]|Hneq].
      * rewrite decide_True; [done|]. split; [done|]. apply elem_of_cons. by left.
      * rewrite decide_False; [done|]. intros [Hi Hj].
        apply elem_of_cons in Hj as [Hj|Hj]; [by apply Hneq | by apply Hout].
Qed.

Lemma lookup2_store_bins g ipts ietas m i j :
  lookup2 (store_bins file_para smear_mult g ipts ietas m) i j =
  match (if decide (i ∈ ipts ∧ j ∈ ietas) then g <$> stored_covariance file_para smear_mult i j else None) with
  | Some cov => Some cov
  | None => lookup2 m i j
  end.
Proof.
  unfold store_bins. revert m. induction ipts as [|ipt ipts IH]; intros m; simpl.
  - done.
  - rewrite IH, lookup2_store_row.
    destruct (g <$> stored_covariance file_para smear_mult i j) as [cov|]; [|by repeat case_decide].
    destruct (decide (i ∈ ipts ∧ j ∈ ietas)) as [[Hi Hj]|Hout].
    + rewrite decide_True; [done|]. split; [|done]. apply elem_of_cons. by right.
    + destruct (decide (ipt = i ∧ j ∈ ietas)) as [[Hi Hj]|Hneq].
      * rewrite decide_True; [done|]. split; [|done]. apply elem_of_cons. by left.
      * rewrite decide_False; [done|]. intros [Hi Hj].
        apply elem_of_cons in Hi as [Hi|Hi]; [by apply Hneq | by apply Hout].
Qed.

Lemma Init_loops_fCovarianceMatrices ipts ietas self :
  fCovarianceMatrices (Init_loops llt file_para smear_mult ipts ietas self)
  = store_bins file_para smear_mult (fun cov => cov) ipts ietas (fCovarianceMatrices self).
Proof.
  unfold Init_loops, store_bins. revert self.
  induction ipts as [|ipt ipts IH]; intros self; simpl; [done|].
  rewrite IH. f_equal. clear IH. revert self.
  induction ietas as [|ieta ietas IH]; intros self; simpl; [done|].
  by rewrite IH.
Qed.

Lemma Init_loops_fSmearingMatrices ipts ietas self :
  fSmearingMatrices (Init_loops llt file_para smear_mult ipts ietas self)
  = store_bins file_para smear_mult (fun cov => matrixL (llt cov)) ipts ietas (fSmearingMatrices self).
Proof.
  unfold Init_loops, store_bins. revert self.
  induction ipts as [|ipt ipts IH]; intros self; simpl; [done|].
  rewrite IH. f_equal. clear IH. revert self.
  induction ietas as [|ieta ietas IH]; intros self; simpl; [done|].
  by rewrite IH.
Qed.

Lemma Init_loops_sout ipts ietas self :
  sout (Init_loops llt file_para smear_mult ipts ietas self)
  = sout self ++ concat (map (fun ipt => concat (map (report_bin file_para smear_mult ipt) ietas)) ipts).
Proof.
  unfold Init_loops. revert self.
  induction ipts as [|ipt ipts IH]; intros self; simpl; [by rewrite app_nil_r|].
  rewrite IH. rewrite app_assoc. f_equal. clear IH. revert self.
  induction ietas as [|ieta ietas IH]; intros self; simpl; [by rewrite app_nil_r|].
  rewrite IH. simpl. by rewrite app_assoc.
Qed.

Lemma Init_loops_frame ipts ietas self :
  fNBinMisses (Init_loops llt file_para smear_mult ipts ietas self) = fNBinMisses self
  ∧ ptbins (Init_loops llt file_para smear_mult ipts ietas self) = ptbins self
  ∧ etabins (Init_loops llt file_para smear_mult ipts ietas self) = etabins self
  ∧ fRandomGenerator (Init_loops llt file_para smear_mult ipts ietas self) = fRandomGenerator self.
Proof.
  unfold Init_loops. revert self.
  induction ipts as [|ipt ipts IH]; intros self; simpl; [done|].
  destruct (IH (fold_left (fun s ieta => Init_bin_done llt file_para smear_mult ipt ieta s) ietas self))
    as (-> & -> & -> & ->). clear IH. revert self.
  induction ietas as [|ieta ietas IH]; intros self; simpl; [done|].
  destruct (IH (Init_bin_done llt file_para smear_mult ipt ieta self)) as (-> & -> & -> & ->). done.
Qed.
End InitFacts.

(** ** The fallback of getValidBins *)

Lemma lookup2_row (m : BinMap) (i j : Z) : lookup2 m i j = row m i !! j.
Proof.
  unfold lookup2, row. destruct (m !! i); simpl; [done|]. by rewrite lookup_empty.
Qed.

Lemma same_but_misses_trans a b c :
  same_but_misses a b -> same_but_misses b c -> same_but_misses a c.
Proof.
  intros (H1 & H2 & H3 & H4 & H5 & H6) (K1 & K2 & K3 & K4 & K5 & K6).
  split; [intros p; by rewrite H1 | repeat split; congruence].
Qed.

Lemma row_touch (m : BinMap) (ptbin p : Z) :
  row (<[ptbin := row m ptbin]> m) p = row m p.
Proof.
  unfold row. destruct (decide (ptbin = p)) as [->|Hne].
  - by rewrite lookup_insert_eq.
  - by rewrite lookup_insert_ne.
Qed.

Lemma getValidBins_fallback (fuel : nat) (ptbin etabin : Z) (self : IPCovSmearing) :
  fst (getValidBins fuel ptbin etabin self)
  = match fst (fallback fuel (row (fSmearingMatrices self) ptbin) etabin) with
    | Ok e => Ok (ptbin, e)
    | Fail f => Fail f
    end
  ∧ fNBinMisses (snd (getValidBins fuel ptbin etabin self))
    = fNBinMisses self + snd (fallback fuel (row (fSmearingMatrices self) ptbin) etabin)
  ∧ same_but_misses (snd (getValidBins fuel ptbin etabin self)) self.
Proof.
  revert etabin self. induction fuel as [|fuel IH]; intros etabin self; simpl.
  - repeat split; lia.
  - fold (row (fSmearingMatrices self) ptbin).
    set (pt_mats := row (fSmearingMatrices self) ptbin).
    set (touched := set_fSmearingMatrices (insert ptbin pt_mats) self).
    assert (Htouched : same_but_misses touched self).
    { repeat split. intros p. apply row_touch. }
    destruct (pt_mats !! etabin) as [found|] eqn:Hrow; simpl.
    { split; [done|]. split; [lia | done]. }
    destruct (etabin =? 0) eqn:Hzero; simpl.
    { split; [done|]. split; [lia | done]. }
    set (counted := set_fNBinMisses Z.succ touched).
    assert (Hcounted : same_but_misses counted self).
    { destruct Htouched as (H1 & H2 & H3 & H4 & H5 & H6). repeat split; done. }
    destruct (etabin - 1 <? INT_MIN) eqn:Hmin; simpl.
    { split; [done|]. split; [lia | done]. }
    destruct (IH (etabin - 1) counted) as (Hres & Hmiss & Hsame).
    assert (Hrow' : row (fSmearingMatrices counted) ptbin = pt_mats).
    { destruct Hcounted as (H1 & _). apply H1. }
    rewrite Hrow' in Hres, Hmiss.
    split; [exact Hres|]. split.
    + rewrite Hmiss. simpl. lia.
    + eapply same_but_misses_trans; eassumption.
Qed.

Lemma fallback_cached (fuel : nat) (m : gmap Z CovMatrix) (etabin : Z) (l : CovMatrix) :
  m !! etabin = Some l -> fallback (S fuel) m etabin = (Ok etabin, 0).
Proof. intros H. simpl. by rewrite H. Qed.

Lemma fallback_budget (fuel fuel' : nat) (m : gmap Z CovMatrix) (etabin : Z) :
  0 <= etabin < Z.of_nat fuel -> etabin < Z.of_nat fuel' ->
  fallback fuel m etabin = fallback fuel' m etabin.
Proof.
  revert fuel' etabin. induction fuel as [|fuel IH]; intros fuel' etabin H H'; [lia|].
  destruct fuel' as [|fuel']; [lia|]. simpl.
  destruct (m !! etabin); [done|].
  destruct (etabin =? 0) eqn:Hzero; [done|].
  apply Z.eqb_neq in Hzero.
  destruct (etabin - 1 <? INT_MIN); [done|].
  rewrite (IH fuel' (etabin - 1)) by lia. done.
Qed.

Lemma fallback_ends (fuel : nat) (m : gmap Z CovMatrix) (etabin : Z) :
  0 <= etabin < Z.of_nat fuel ->
  0 <= snd (fallback fuel m etabin) <= etabin
  ∧ ((exists e, fst (fallback fuel m etabin) = Ok e
               ∧ 0 <= e <= etabin ∧ is_Some (m !! e)
               ∧ snd (fallback fuel m etabin) = etabin - e
               ∧ forall e', e < e' <= etabin -> m !! e' = None)
     ∨ (fst (fallback fuel m etabin)
          = Fail (logic_error ("no eta bins for pt bin: " +:+ pretty 0))
        ∧ snd (fallback fuel m etabin) = etabin
        ∧ forall e', 0 <= e' <= etabin -> m !! e' = None)).
Proof.
  revert etabin. induction fuel as [|fuel IH]; intros etabin H; [lia|]. simpl.
  destruct (m !! etabin) as [found|] eqn:Hrow; simpl.
  { split; [lia|]. left. exists etabin.
    split; [done|]. split; [lia|]. split; [by eexists|]. split; [lia|].
    intros e' He'. lia. }
  destruct (etabin =? 0) eqn:Hzero; simpl.
  { apply Z.eqb_eq in Hzero. subst etabin. split; [lia|]. right.
    split; [done|]. split; [done|].
    intros e' He'. by replace e' with 0 by lia. }
  apply Z.eqb_neq in Hzero.
  assert (Hmin : (etabin - 1 <? INT_MIN) = false).
  { apply Z.ltb_ge. unfold INT_MIN. lia. }
  rewrite Hmin. simpl.
  destruct (IH (etabin - 1)) as (Hbound & Hcases); [lia|].
  split; [lia|].
  destruct Hcases as [(e & He & Hrange & Hsome & Hcount & Hnone)|(Hfail & Hcount & Hnone)].
  - left. exists e.
    split; [done|]. split; [lia|]. split; [done|]. split; [lia|].
    intros e' He'. destruct (decide (e' = etabin)) as [->|]; [done|].
    apply Hnone. lia.
  - right. split; [done|]. split; [lia|].
    intros e' He'. destruct (decide (e' = etabin)) as [->|]; [done|].
    apply Hnone. lia.
Qed.

Lemma fallback_negative (fuel : nat) (m : gmap Z CovMatrix) (etabin : Z) :
  etabin < 0 -> (forall e, e < 0 -> m !! e = None) ->
  fst (fallback fuel m etabin) = Fail still_running
  ∨ fst (fallback fuel m etabin) = Fail signed_overflow.
Proof.
  revert etabin. induction fuel as [|fuel IH]; intros etabin Hneg Hnone; simpl.
  - by left.
  - rewrite (Hnone etabin Hneg).
    destruct (etabin =? 0) eqn:Hzero; [apply Z.eqb_eq in Hzero; lia|].
    destruct (etabin - 1 <? INT_MIN); simpl; [by right|].
    apply IH; [lia | done].
Qed.

(** ** The scan over the bin edges *)

Section BinScanFacts.
Context {A : Type} (gt : A -> A -> bool).

Lemma scan_bins_last (i : Z) (edges : list A) (x : A) (bin : Z) :
  (scan_bins gt i edges x bin = bin
   ∧ forall (k : nat) e, edges !! k = Some e -> gt x e = false)
  ∨ (exists (k : nat) e, scan_bins gt i edges x bin = i + Z.of_nat k
     ∧ edges !! k = Some e ∧ gt x e = true
     ∧ forall (k' : nat) e', edges !! k' = Some e' -> gt x e' = true -> (k' <= k)%nat).
Proof.
  revert i bin. induction edges as [|e edges IH]; intros i bin; simpl.
  - left. split; [done|]. intros k e H. by rewrite lookup_nil in H.
  - destruct (IH (i + 1) (if gt x e then i else bin))
      as [[Hkeep Hnone]|(k & e' & Hscan & Hk & Hgt & Hlast)].
    + destruct (gt x e) eqn:Hhead.
      * right. exists 0%nat, e. split; [rewrite Hkeep; lia|].
        split; [done|]. split; [done|].
        intros [|k'] e' Hk' Hgt'; [lia|]. simpl in Hk'.
        rewrite (Hnone k' e' Hk') in Hgt'. discriminate.
      * left. split; [done|]. intros [|k] e' Hk; simpl in Hk.
        -- by injection Hk as <-.
        -- by apply (Hnone k).
    + right. exists (S k), e'. split; [rewrite Hscan; lia|].
      split; [done|]. split; [done|].
      intros [|k'] e'' Hk' Hgt'; [lia|]. simpl in Hk'.
      specialize (Hlast k' e'' Hk' Hgt'). lia.
Qed.

Lemma find_bin_greatest (edges : list A) (x : A) :
  greatest_exceeded gt edges x (find_bin gt edges x).
Proof.
  unfold find_bin, greatest_exceeded.
  destruct (scan_bins_last 0 edges x (-1))
    as [[-> Hnone]|(k & e & -> & Hk & Hgt & Hlast)].
  - by left.
  - right. split; [lia|]. exists e.
    replace (Z.to_nat (0 + Z.of_nat k)) with k by lia.
    split; [done|]. split; [done|].
    intros j e' Hj Hgt'. specialize (Hlast j e' Hj Hgt'). lia.
Qed.
End BinScanFacts.

Lemma Rgtb_true (x y : R) : Rgtb x y = true <-> (x > y)%R.
Proof. unfold Rgtb. destruct (Rgt_dec x y); split; (done || discriminate). Qed.

Ltac compare_edges :=
  unfold find_bin, pt_edges, eta_edges, Rgtb; simpl;
  repeat (destruct (Rgt_dec _ _); try lra); try reflexivity; try lia.

Lemma find_bin_pt_low (pt : R) : find_bin Rgtb pt_edges pt = -1 <-> (pt <= 10)%R.
Proof. split; intros H; revert H; compare_edges; intros; lia. Qed.

Lemma find_bin_eta_low (x : R) : find_bin Rgtb eta_edges x = -1 <-> (x <= 0.0)%R.
Proof. split; intros H; revert H; compare_edges; intros; lia. Qed.

Lemma find_bin_pt_edge (i : nat) (e : R) :
  pt_edges !! i = Some e -> find_bin Rgtb pt_edges e = Z.of_nat i - 1.
Proof.
  intros H. do 8 (destruct i as [|i]; [injection H as <-; compare_edges|]).
  discriminate.
Qed.

Lemma find_bin_eta_edge (i : nat) (e : R) :
  eta_edges !! i = Some e -> find_bin Rgtb eta_edges e = Z.of_nat i - 1.
Proof.
  intros H. do 9 (destruct i as [|i]; [injection H as <-; compare_edges|]).
  discriminate.
Qed.

(** The scenario values, the edges and a NaN on binary64 values. *)
Module DoublesExamples.
Import Floats.
#[local] Set Warnings "-inexact-float".
Example ptbin_of_15 : Doubles.ptbin_of 15 = 0.
Proof. reflexivity. Qed.
Example ptbin_of_5 : Doubles.ptbin_of 5 = -1.
Proof. reflexivity. Qed.
Example ptbin_of_edge : Doubles.ptbin_of 50 = 1.
Proof. reflexivity. Qed.
Example etabin_of_minus_09 : Doubles.etabin_of (-0.9) = 2.
Proof. reflexivity. Qed.
Example etabin_of_0 : Doubles.etabin_of 0 = -1.
Proof. reflexivity. Qed.
Example etabin_of_edge : Doubles.etabin_of 1.05 = 2.
Proof. reflexivity. Qed.
Example ptbin_of_nan : Doubles.ptbin_of PrimFloat.nan = -1.
Proof. reflexivity. Qed.
End DoublesExamples.

(** ** Init on a freshly constructed module *)

Lemma Init_new llt file_para smear_mult rng :
  Init llt file_para smear_mult (new_IPCovSmearing rng)
  = Ok (initialised llt file_para smear_mult rng).
Proof. unfold Init, initialised. cbv zeta. apply Init_loops_total. Qed.

Lemma initialised_fCovarianceMatrices llt file_para smear_mult rng ipt ieta :
  lookup2 (fCovarianceMatrices (initialised llt file_para smear_mult rng)) ipt ieta
  = if decide (bin_in_range ipt ieta)
    then stored_covariance file_para smear_mult ipt ieta else None.
Proof.
  unfold initialised. rewrite Init_loops_fCovarianceMatrices. rewrite lookup2_store_bins.
  simpl fCovarianceMatrices. rewrite lookup2_empty.
  destruct (decide (bin_in_range ipt ieta)) as [Hin|Hout];
    destruct (decide (_ ∧ _)) as [Hin'|Hout'].
  - by destruct (stored_covariance file_para smear_mult ipt ieta).
  - exfalso. apply Hout'. rewrite !elem_of_seqZ. unfold bin_in_range in Hin. lia.
  - exfalso. apply Hout. rewrite !elem_of_seqZ in Hin'. unfold bin_in_range. lia.
  - done.
Qed.

Lemma initialised_fSmearingMatrices llt file_para smear_mult rng ipt ieta :
  lookup2 (fSmearingMatrices (initialised llt file_para smear_mult rng)) ipt ieta
  = if decide (bin_in_range ipt ieta)
    then (fun cov => matrixL (llt cov)) <$> stored_covariance file_para smear_mult ipt ieta
    else None.
Proof.
  unfold initialised. rewrite Init_loops_fSmearingMatrices. rewrite lookup2_store_bins.
  simpl fSmearingMatrices. rewrite lookup2_empty.
  destruct (decide (bin_in_range ipt ieta)) as [Hin|Hout];
    destruct (decide (_ ∧ _)) as [Hin'|Hout'].
  - by destruct (stored_covariance file_para smear_mult ipt ieta).
  - exfalso. apply Hout'. rewrite !elem_of_seqZ. unfold bin_in_range in Hin. lia.
  - exfalso. apply Hout. rewrite !elem_of_seqZ in Hin'. unfold bin_in_range. lia.
  - done.
Qed.

Lemma initialised_bins llt file_para smear_mult rng :
  ptbins (initialised llt file_para smear_mult rng) = pt_edges
  ∧ etabins (initialised llt file_para smear_mult rng) = eta_edges
  ∧ fNBinMisses (initialised llt file_para smear_mult rng) = 0.
Proof.
  unfold initialised.
  destruct (Init_loops_frame llt file_para smear_mult (seqZ (-1) 9) (seqZ 0 9)
              (set_bins pt_edges eta_edges (new_IPCovSmearing rng)))
    as (-> & -> & -> & _).
  done.
Qed.

(** * The claims *)

(** ** Unit conversion *)

(** C6. [convert_units_to_gev] maps a matrix [m] to [D * m * D] with
    [D = diag(1,1,1,1,1000)]: the entry (4,4) is multiplied by 1000^2, an
    entry with exactly one index equal to 4 by 1000, the other entries are
    unchanged; and every matrix [get_cov_matrix] returns is the conversion of
    the matrix found in the file (inflated afterwards when ptbin is -1). *)
Theorem convert_units_to_gev_congruence (m : CovMatrix) :
  mat_eq (convert_units_to_gev m)
    (mat_mul (mat_mul (diag (vec_of 1 1 1 1 1000)) m) (diag (vec_of 1 1 1 1 1000)))
  ∧ convert_units_to_gev m 4%nat 4%nat = (1000 ^ 2 * m 4%nat 4%nat)%R
  ∧ (forall i, (i < 4)%nat ->
       convert_units_to_gev m i 4%nat = (1000 * m i 4%nat)%R
       ∧ convert_units_to_gev m 4%nat i = (1000 * m 4%nat i)%R)
  ∧ (forall i j, (i < 4)%nat -> (j < 4)%nat -> convert_units_to_gev m i j = m i j)
  ∧ (forall (file : TFile) ptbin etabin cov,
       get_cov_matrix file ptbin etabin = Ok cov ->
       exists loaded,
         file !! matrix_name (if ptbin =? -1 then 0 else ptbin) etabin = Some loaded
         ∧ cov = if ptbin =? -1
                 then do_low_pt_hack (convert_units_to_gev loaded)
                 else convert_units_to_gev loaded).
Proof.
  split.
  { intros i j Hi Hj.
    rewrite convert_units_to_gev_coeff, diag_congruence_coeff by done. done. }
  split.
  { rewrite convert_units_to_gev_coeff by lia. unfold gev_factor; simpl. lra. }
  split.
  { intros i Hi. rewrite !convert_units_to_gev_coeff by lia.
    unfold gev_factor. do 4 (destruct i as [|i]; [simpl; lra|]). lia. }
  split.
  { intros i j Hi Hj. rewrite convert_units_to_gev_coeff by lia.
    unfold gev_factor.
    do 4 (destruct i as [|i]; [do 4 (destruct j as [|j]; [simpl; lra|]); lia|]). lia. }
  intros file ptbin etabin cov. unfold get_cov_matrix.
  destruct (file !! _) as [loaded|]; [|discriminate].
  intros H. injection H as <-. exists loaded. split; [done|].
  by destruct (ptbin =? -1).
Qed.

Lemma convert_units_to_gev_congruence_witness :
  get_cov_matrix {[ matrix_name 2 3 := counting_matrix ]} 2 3
    = Ok (convert_units_to_gev counting_matrix)
  ∧ convert_units_to_gev counting_matrix 4%nat 4%nat = (1000 ^ 2 * 9)%R
  ∧ convert_units_to_gev counting_matrix 1%nat 4%nat = (1000 * 6)%R
  ∧ convert_units_to_gev counting_matrix 1%nat 2%nat = 4%R.
Proof.
  destruct (convert_units_to_gev_congruence counting_matrix)
    as (_ & H44 & Hcross & Hrest & Hfile).
  assert (Hget : get_cov_matrix {[ matrix_name 2 3 := counting_matrix ]} 2 3
                 = Ok (convert_units_to_gev counting_matrix)).
  { unfold get_cov_matrix. simpl (2 =? -1). cbv iota.
    rewrite lookup_singleton_eq. done. }
  split; [exact Hget|].
  split; [rewrite H44; unfold counting_matrix; simpl; lra|].
  split; [rewrite (proj1 (Hcross 1%nat ltac:(lia))); unfold counting_matrix; simpl; lra|].
  rewrite (Hrest 1%nat 2%nat) by lia. unfold counting_matrix; simpl; lra.
Defined.

(** ** Low-momentum correction *)

Lemma get_cov_matrix_low_pt (file : TFile) (etabin : Z) :
  get_cov_matrix file (-1) etabin
  = match get_cov_matrix file 0 etabin with
    | Ok m => Ok (do_low_pt_hack m)
    | Fail e => Fail e
    end.
Proof.
  unfold get_cov_matrix. simpl. by destruct (file !! matrix_name 0 etabin).
Qed.

Lemma get_cov_matrix_reads (file : TFile) (ptbin etabin : Z) :
  get_cov_matrix file ptbin etabin
  = match file !! object_name ptbin etabin with
    | Some loaded =>
        Ok (if ptbin =? -1 then do_low_pt_hack (convert_units_to_gev loaded)
            else convert_units_to_gev loaded)
    | None => Fail (invalid_argument ("no bin " +:+ object_name ptbin etabin))
    end.
Proof. unfold get_cov_matrix, object_name. by destruct (file !! _). Qed.

(** C5. When the file has an object under the name of (pt bin 0, etabin),
    [Init] stores for (0, etabin) its conversion [m] times the multiplier,
    and for (-1, etabin) the inflation [H * m * H] of the same conversion
    times the multiplier, with [H = diag(2,2,1,1,1)]; without that object it
    stores neither.  So the matrix stored under -1 is [H * b * H] for the
    matrix [b] stored under 0: its (d0,d0) and (z0,z0) entries are 2.0^2
    times those of bin 0, an entry with exactly one index among d0 and z0
    is doubled, an entry with none is unchanged.  A matrix stored for
    ptbin >= 0 is the converted file matrix of its own name times the
    multiplier, not inflated. *)
Theorem low_pt_correction (llt : CovMatrix -> LLT) (file : TFile) (smear_mult : R)
    (rng : RandomGenerator) (etabin : Z) :
  exists self,
    Init llt file smear_mult (new_IPCovSmearing rng) = Ok self
    ∧ get_cov_matrix file (-1) etabin
      = match get_cov_matrix file 0 etabin with
        | Ok m => Ok (do_low_pt_hack m)
        | Fail e => Fail e
        end
    ∧ (forall loaded,
         0 <= etabin < 9 ->
         file !! matrix_name 0 etabin = Some loaded ->
         lookup2 (fCovarianceMatrices self) (-1) etabin
         = Some (mat_scale (do_low_pt_hack (convert_units_to_gev loaded)) smear_mult)
         ∧ lookup2 (fCovarianceMatrices self) 0 etabin
           = Some (mat_scale (convert_units_to_gev loaded) smear_mult))
    ∧ match lookup2 (fCovarianceMatrices self) (-1) etabin,
            lookup2 (fCovarianceMatrices self) 0 etabin with
      | Some low, Some bin0 =>
          (exists loaded,
             file !! matrix_name 0 etabin = Some loaded
             ∧ bin0 = mat_scale (convert_units_to_gev loaded) smear_mult
             ∧ low = mat_scale (do_low_pt_hack (convert_units_to_gev loaded))
                       smear_mult)
          ∧ mat_eq low
              (mat_mul (mat_mul (diag (vec_of 2 2 1 1 1)) bin0)
                 (diag (vec_of 2 2 1 1 1)))
          ∧ low TrackParam.D0 TrackParam.D0
            = (2.0 ^ 2 * bin0 TrackParam.D0 TrackParam.D0)%R
          ∧ low TrackParam.Z0 TrackParam.Z0
            = (2.0 ^ 2 * bin0 TrackParam.Z0 TrackParam.Z0)%R
          ∧ (forall i j, (i < 5)%nat -> (j < 5)%nat ->
               (inflated i ∧ ¬ inflated j) ∨ (¬ inflated i ∧ inflated j) ->
               low i j = (2.0 * bin0 i j)%R)
          ∧ (forall i j, (i < 5)%nat -> (j < 5)%nat ->
               ¬ inflated i -> ¬ inflated j -> low i j = bin0 i j)
      | None, None => ¬ (0 <= etabin < 9) ∨ file !! matrix_name 0 etabin = None
      | _, _ => False
      end
    ∧ (forall ptbin cov, 0 <= ptbin ->
         lookup2 (fCovarianceMatrices self) ptbin etabin = Some cov ->
         exists loaded, file !! matrix_name ptbin etabin = Some loaded
                        ∧ cov = mat_scale (convert_units_to_gev loaded) smear_mult)
    ∧ (forall ptbin cov, 0 <= ptbin ->
         get_cov_matrix file ptbin etabin = Ok cov ->
         exists loaded, file !! matrix_name ptbin etabin = Some loaded
                        ∧ cov = convert_units_to_gev loaded).
Proof.
  exists (initialised llt file smear_mult rng).
  split; [apply Init_new|]. split; [apply get_cov_matrix_low_pt|].
  assert (Hstored : forall ptbin,
            lookup2 (fCovarianceMatrices (initialised llt file smear_mult rng))
              ptbin etabin
            = if decide (bin_in_range ptbin etabin)
              then match file !! object_name ptbin etabin with
                   | Some loaded =>
                       Some (mat_scale
                               (if ptbin =? -1
                                then do_low_pt_hack (convert_units_to_gev loaded)
                                else convert_units_to_gev loaded) smear_mult)
                   | None => None
                   end
              else None).
  { intros ptbin. rewrite initialised_fCovarianceMatrices. unfold stored_covariance.
    rewrite get_cov_matrix_reads. by destruct (file !! _). }
  change (matrix_name 0 etabin) with (object_name (-1) etabin) at 1.
  change (matrix_name 0 etabin) with (object_name 0 etabin).
  split; [|split; [|split]].
  - intros loaded Heta Hfile. rewrite !Hstored.
    rewrite !decide_True by (unfold bin_in_range; lia).
    change (object_name (-1) etabin) with (object_name 0 etabin) in *.
    by rewrite Hfile.
  - rewrite !Hstored.
    change (object_name (-1) etabin) with (object_name 0 etabin).
    destruct (decide (bin_in_range (-1) etabin)) as [Hin|Hout];
      destruct (decide (bin_in_range 0 etabin)) as [Hin0|Hout0];
      try (exfalso; unfold bin_in_range in *; lia);
      [|left; unfold bin_in_range in Hout0; lia].
    destruct (file !! object_name 0 etabin) as [loaded|]; [|by right].
    change (-1 =? -1) with true. change (0 =? -1) with false. cbv iota.
    split; [by exists loaded|].
    set (m := convert_units_to_gev loaded).
    assert (Hcoeff : forall i j, (i < 5)%nat -> (j < 5)%nat ->
              mat_scale (do_low_pt_hack m) smear_mult i j
              = (hack_factor i * mat_scale m smear_mult i j * hack_factor j)%R).
    { intros i j Hi Hj. unfold mat_scale. rewrite do_low_pt_hack_coeff by done. lra. }
    split.
    { intros i j Hi Hj. rewrite Hcoeff, diag_congruence_coeff by done. done. }
    split; [rewrite Hcoeff by (unfold TrackParam.D0; lia); unfold hack_factor; simpl; lra|].
    split; [rewrite Hcoeff by (unfold TrackParam.Z0; lia); unfold hack_factor; simpl; lra|].
    unfold inflated, TrackParam.D0, TrackParam.Z0. split.
    + intros i j Hi Hj Hone. rewrite Hcoeff by done. unfold hack_factor.
      index5 i; index5 j; simpl; try lra; exfalso; lia.
    + intros i j Hi Hj Hni Hnj. rewrite Hcoeff by done. unfold hack_factor.
      index5 i; index5 j; simpl; try lra; exfalso; lia.
  - intros ptbin cov Hpt. rewrite Hstored.
    destruct (decide (bin_in_range ptbin etabin)); [|discriminate].
    unfold object_name.
    replace (ptbin =? -1) with false by (symmetry; apply Z.eqb_neq; lia).
    destruct (file !! _) as [loaded|]; [|discriminate].
    intros H. injection H as <-. by exists loaded.
  - intros ptbin cov Hpt. unfold get_cov_matrix.
    replace (ptbin =? -1) with false by (symmetry; apply Z.eqb_neq; lia).
    destruct (file !! _) as [loaded|]; [|discriminate].
    intros H. injection H as <-. by exists loaded.
Qed.

Lemma low_pt_correction_witness :
  exists self,
    Init example_llt
      {[ matrix_name 0 3 := counting_matrix ]} 1
      (new_IPCovSmearing example_rng) = Ok self
    ∧ exists low bin0,
        lookup2 (fCovarianceMatrices self) (-1) 3 = Some low
        ∧ lookup2 (fCovarianceMatrices self) 0 3 = Some bin0
        ∧ bin0 = mat_scale (convert_units_to_gev counting_matrix) 1
        ∧ low = mat_scale (do_low_pt_hack (convert_units_to_gev counting_matrix)) 1
        ∧ low 0%nat 0%nat = (2.0 ^ 2 * bin0 0%nat 0%nat)%R
        ∧ low 0%nat 4%nat = (2.0 * bin0 0%nat 4%nat)%R
        ∧ low 2%nat 4%nat = bin0 2%nat 4%nat.
Proof.
  destruct (low_pt_correction example_llt
              {[ matrix_name 0 3 := counting_matrix ]} 1
              example_rng 3)
    as (self & HInit & _ & Hfile & Hstored & _).
  exists self. split; [exact HInit|].
  destruct (Hfile counting_matrix) as (Hlow & Hbin0);
    [lia | apply lookup_singleton_eq |].
  rewrite Hlow, Hbin0 in Hstored.
  destruct Hstored as (_ & _ & Hd0 & _ & Hone & Hnone).
  eexists _, _. split; [exact Hlow|]. split; [exact Hbin0|]. split; [reflexivity|].
  split; [reflexivity|]. split; [exact Hd0|]. split.
  - apply Hone; [lia | lia |]. left. unfold inflated, TrackParam.D0, TrackParam.Z0. lia.
  - apply Hnone; [lia | lia | |]; unfold inflated, TrackParam.D0, TrackParam.Z0; lia.
Defined.

(** ** The Cholesky cache *)

Lemma stored_covariance_None (file : TFile) (smear_mult : R) (ipt ieta : Z) :
  stored_covariance file smear_mult ipt ieta = None <-> absent file ipt ieta.
Proof.
  unfold stored_covariance, get_cov_matrix, absent.
  destruct (file !! _); split; intros H; done.
Qed.

Lemma initialised_sout llt file smear_mult rng (line : string) :
  In line (sout (initialised llt file smear_mult rng))
  <-> exists ipt ieta, bin_in_range ipt ieta ∧ absent file ipt ieta
                       ∧ line = no_smearing_message ipt ieta.
Proof.
  unfold initialised. rewrite Init_loops_sout. simpl sout. rewrite app_nil_l.
  rewrite in_concat. split.
  - intros (lines & Hrow & Hline). apply in_map_iff in Hrow as (ipt & <- & Hipt).
    apply in_concat in Hline as (cell & Hcell & Hline).
    apply in_map_iff in Hcell as (ieta & <- & Hieta).
    unfold report_bin in Hline.
    destruct (stored_covariance file smear_mult ipt ieta) eqn:Hstored; [done|].
    destruct Hline as [<-|[]]. exists ipt, ieta.
    apply list_elem_of_In, elem_of_seqZ in Hipt, Hieta.
    split; [unfold bin_in_range; lia|].
    split; [by apply (stored_covariance_None file smear_mult)|done].
  - intros (ipt & ieta & Hin & Habsent & ->).
    exists (concat (map (report_bin file smear_mult ipt) (seqZ 0 9))). split.
    + apply in_map_iff. exists ipt. split; [done|].
      apply list_elem_of_In, elem_of_seqZ. unfold bin_in_range in Hin. lia.
    + apply in_concat. exists (report_bin file smear_mult ipt ieta). split.
      * apply in_map_iff. exists ieta. split; [done|].
        apply list_elem_of_In, elem_of_seqZ. unfold bin_in_range in Hin. lia.
      * unfold report_bin.
        apply (stored_covariance_None file smear_mult) in Habsent.
        rewrite Habsent. by left.
Qed.

(** C3, as the code has it.  [Init] drops a bin from the Cholesky cache,
    with one diagnostic line, exactly when the file has no matrix for it.
    Every stored covariance matrix has its entry [matrixL (llt cov)] in the
    cache, whatever [info] the factorisation reports, and [getValidBins]
    returns that bin without falling back. *)
Theorem Cholesky_cache_follows_file (llt : CovMatrix -> LLT) (file : TFile)
    (smear_mult : R) (rng : RandomGenerator) :
  exists self,
    Init llt file smear_mult (new_IPCovSmearing rng) = Ok self
    ∧ (forall ipt ieta,
         lookup2 (fSmearingMatrices self) ipt ieta
         = (fun cov => matrixL (llt cov)) <$> lookup2 (fCovarianceMatrices self) ipt ieta)
    ∧ (forall ipt ieta,
         lookup2 (fSmearingMatrices self) ipt ieta = None
         <-> ¬ bin_in_range ipt ieta ∨ absent file ipt ieta)
    ∧ (forall line,
         In line (sout self)
         <-> exists ipt ieta, bin_in_range ipt ieta ∧ absent file ipt ieta
                              ∧ line = no_smearing_message ipt ieta)
    ∧ (forall ipt ieta cov fuel,
         lookup2 (fCovarianceMatrices self) ipt ieta = Some cov ->
         fst (getValidBins (S fuel) ipt ieta self) = Ok (ipt, ieta)
         ∧ at2 (fSmearingMatrices (snd (getValidBins (S fuel) ipt ieta self))) ipt ieta
           = Ok (matrixL (llt cov))).
Proof.
  exists (initialised llt file smear_mult rng).
  split; [apply Init_new|].
  assert (Hsame : forall ipt ieta,
    lookup2 (fSmearingMatrices (initialised llt file smear_mult rng)) ipt ieta
    = (fun cov => matrixL (llt cov))
        <$> lookup2 (fCovarianceMatrices (initialised llt file smear_mult rng)) ipt ieta).
  { intros ipt ieta.
    rewrite initialised_fSmearingMatrices, initialised_fCovarianceMatrices.
    by destruct (decide (bin_in_range ipt ieta)). }
  split; [exact Hsame|]. split.
  { intros ipt ieta. rewrite initialised_fSmearingMatrices.
    rewrite <- (stored_covariance_None file smear_mult).
    destruct (decide (bin_in_range ipt ieta)) as [Hin|Hout].
    - destruct (stored_covariance file smear_mult ipt ieta); simpl.
      + split; [discriminate | intros [?|?]; [done | discriminate]].
      + split; [by right | done].
    - split; [by left | done]. }
  split; [apply initialised_sout|].
  intros ipt ieta cov fuel Hcov.
  destruct (getValidBins_fallback (S fuel) ipt ieta (initialised llt file smear_mult rng))
    as (Hres & _ & Hrows & _).
  assert (Hl : row (fSmearingMatrices (initialised llt file smear_mult rng)) ipt !! ieta
               = Some (matrixL (llt cov))).
  { rewrite <- lookup2_row, Hsame, Hcov. done. }
  split.
  - rewrite Hres, (fallback_cached _ _ _ _ Hl). done.
  - unfold at2. rewrite lookup2_row, Hrows, Hl. done.
Qed.

(** C3, as stated, fails: the covariance stored for bin (0, 0) of
    [indefinite_file] is not positive semi-definite, yet whatever [llt]
    does with it the bin is in the Cholesky cache, no diagnostic names it,
    and [getValidBins] returns it as it would a valid bin. *)
Lemma Cholesky_failure_keeps_bin :
  ¬ positive_semidefinite indefinite_covariance
  ∧ forall (llt : CovMatrix -> LLT) (rng : RandomGenerator),
      exists self,
        Init llt indefinite_file 1 (new_IPCovSmearing rng) = Ok self
        ∧ lookup2 (fCovarianceMatrices self) 0 0 = Some indefinite_covariance
        ∧ lookup2 (fSmearingMatrices self) 0 0
          = Some (matrixL (llt indefinite_covariance))
        ∧ ¬ In (no_smearing_message 0 0) (sout self)
        ∧ fst (getValidBins 1 0 0 self) = Ok (0, 0)
        ∧ fNBinMisses (snd (getValidBins 1 0 0 self)) = 0.
Proof.
  split.
  { intros Hpsd. specialize (Hpsd (vec_of 1 0 0 0 0)).
    unfold indefinite_covariance, mat_vec, sum5, mat_scale in Hpsd.
    rewrite !convert_units_to_gev_coeff in Hpsd by lia.
    unfold gev_factor, Identity in Hpsd. simpl in Hpsd. lra. }
  intros llt rng. exists (initialised llt indefinite_file 1 rng).
  split; [apply Init_new|].
  assert (Hget : get_cov_matrix indefinite_file 0 0
                 = Ok (convert_units_to_gev (mat_scale Identity (-1)))).
  { unfold get_cov_matrix, indefinite_file. simpl (0 =? -1). cbv iota.
    rewrite lookup_singleton_eq. done. }
  assert (Hcov : lookup2 (fCovarianceMatrices (initialised llt indefinite_file 1 rng)) 0 0
                 = Some indefinite_covariance).
  { rewrite initialised_fCovarianceMatrices.
    rewrite decide_True by (unfold bin_in_range; lia).
    unfold stored_covariance. rewrite Hget. done. }
  assert (Hsm : lookup2 (fSmearingMatrices (initialised llt indefinite_file 1 rng)) 0 0
                = Some (matrixL (llt indefinite_covariance))).
  { rewrite initialised_fSmearingMatrices.
    rewrite decide_True by (unfold bin_in_range; lia).
    unfold stored_covariance. rewrite Hget. done. }
  split; [exact Hcov|]. split; [exact Hsm|]. split.
  - rewrite initialised_sout. intros (ipt & ieta & Hin & Habsent & Hline).
    assert (ipt = 0 ∧ ieta = 0) as [-> ->].
    { unfold bin_in_range in Hin.
      assert (Hipt : ipt ∈ seqZ (-1) 9) by (apply elem_of_seqZ; lia).
      assert (Hieta : ieta ∈ seqZ 0 9) by (apply elem_of_seqZ; lia).
      clear Hin Habsent. revert Hline.
      vm_compute in Hipt, Hieta.
      repeat (apply elem_of_cons in Hipt as [->|Hipt]);
        try (by apply not_elem_of_nil in Hipt);
        repeat (apply elem_of_cons in Hieta as [->|Hieta]);
        try (by apply not_elem_of_nil in Hieta);
        vm_compute; intros Hline; (done || discriminate). }
    unfold absent, indefinite_file in Habsent. simpl (0 =? -1) in Habsent.
    cbv iota in Habsent. rewrite lookup_singleton_eq in Habsent. discriminate.
  - destruct (getValidBins_fallback 1 0 0 (initialised llt indefinite_file 1 rng))
      as (-> & -> & _).
    rewrite lookup2_row in Hsm. rewrite (fallback_cached _ _ _ _ Hsm).
    split; [done|].
    destruct (initialised_bins llt indefinite_file 1 rng) as (_ & _ & ->). done.
Qed.

Lemma Cholesky_cache_follows_file_witness :
  exists self cov,
    Init example_llt indefinite_file 1 (new_IPCovSmearing example_rng) = Ok self
    ∧ lookup2 (fCovarianceMatrices self) 0 0 = Some cov
    ∧ fst (getValidBins 1 0 0 self) = Ok (0, 0).
Proof.
  destruct (Cholesky_cache_follows_file example_llt indefinite_file 1 example_rng)
    as (self & HInit & Hsame & Hnone & _ & Hfound).
  exists self.
  destruct (lookup2 (fCovarianceMatrices self) 0 0) as [cov|] eqn:Hcov.
  - exists cov. split; [exact HInit|]. split; [reflexivity|].
    exact (proj1 (Hfound 0 0 cov 0%nat Hcov)).
  - exfalso. specialize (Hsame 0 0). rewrite Hcov in Hsame.
    apply Hnone in Hsame as [Hrange|Habsent].
    + apply Hrange. unfold bin_in_range. lia.
    + unfold absent, indefinite_file in Habsent. simpl (0 =? -1) in Habsent.
      cbv iota in Habsent. rewrite lookup_singleton_eq in Habsent. discriminate.
Defined.

(** ** The bins of a track *)

Lemma find_bin_greatest_edge (edges : list R) (x : R) :
  find_bin Rgtb edges x = -1 ∨ greatest_edge_exceeded edges x (find_bin Rgtb edges x).
Proof.
  destruct (find_bin_greatest Rgtb edges x) as [[H _]|(Hpos & e & He & Hgt & Hlast)].
  - by left.
  - right. split; [done|]. split.
    + exists e. split; [done|]. by apply Rgtb_true.
    + intros j e' Hj Hgt'. apply (Hlast j e' Hj). by apply Rgtb_true.
Qed.

(** C4. After [Init] the edges are the two fixed ascending lists; the pt bin
    of [pt] is -1 when [pt <= 10] and otherwise the greatest index whose
    edge [pt] strictly exceeds, and likewise for the eta bin of [|eta|]
    against 0.0; an argument equal to an edge gets the bin below that
    edge's; pt = 15 gives 0, pt = 5 gives -1 and |eta| = 0.9 gives 2. *)
Theorem bin_lookup (llt : CovMatrix -> LLT) (file : TFile) (smear_mult : R)
    (rng : RandomGenerator) :
  exists self,
    Init llt file smear_mult (new_IPCovSmearing rng) = Ok self
    ∧ ptbins self = map IZR (10 :: 20 :: 50 :: 100 :: 200 :: 250 :: 500 :: 750 :: nil)
    ∧ etabins self = (0.0 :: 0.4 :: 0.8 :: 1.05 :: 1.5 :: 1.7 :: 2.0 :: 2.25 :: 2.7 :: nil)%R
    ∧ (forall pt : R,
         ((pt <= 10)%R ∧ ptbin_of self pt = -1)
         ∨ ((pt > 10)%R ∧ greatest_edge_exceeded (ptbins self) pt (ptbin_of self pt)))
    ∧ (forall eta : R,
         ((Rabs eta <= 0.0)%R ∧ etabin_of self eta = -1)
         ∨ ((Rabs eta > 0.0)%R
            ∧ greatest_edge_exceeded (etabins self) (Rabs eta) (etabin_of self eta)))
    ∧ (forall (i : nat) (e : R),
         ptbins self !! i = Some e -> ptbin_of self e = Z.of_nat i - 1)
    ∧ (forall (i : nat) (e : R),
         etabins self !! i = Some e -> etabin_of self e = Z.of_nat i - 1)
    ∧ ptbin_of self 15 = 0
    ∧ ptbin_of self 5 = -1
    ∧ etabin_of self 0.9 = 2
    ∧ etabin_of self (-0.9) = 2.
Proof.
  exists (initialised llt file smear_mult rng).
  split; [apply Init_new|].
  destruct (initialised_bins llt file smear_mult rng) as (Hpt & Heta & _).
  unfold ptbin_of, etabin_of. rewrite Hpt, Heta.
  split; [done|]. split; [done|]. split.
  { intros pt. destruct (Rle_dec pt 10) as [Hle|Hgt].
    - left. split; [done|]. by apply find_bin_pt_low.
    - right. split; [lra|].
      destruct (find_bin_greatest_edge pt_edges pt) as [Hlow|Hgreatest]; [|done].
      apply find_bin_pt_low in Hlow. lra. }
  split.
  { intros eta. destruct (Rle_dec (Rabs eta) 0.0) as [Hle|Hgt].
    - left. split; [done|]. by apply find_bin_eta_low.
    - right. split; [lra|].
      destruct (find_bin_greatest_edge eta_edges (Rabs eta)) as [Hlow|Hgreatest]; [|done].
      apply find_bin_eta_low in Hlow. lra. }
  split; [apply find_bin_pt_edge|]. split.
  { intros i e He. rewrite Rabs_right; [by apply find_bin_eta_edge|].
    do 9 (destruct i as [|i]; [injection He as <-; lra|]). discriminate. }
  split; [compare_edges|]. split; [compare_edges|]. split.
  - rewrite Rabs_right by lra. compare_edges.
  - rewrite Rabs_left by lra. replace (- -0.9)%R with 0.9%R by lra. compare_edges.
Qed.

Lemma bin_lookup_witness :
  exists self,
    Init example_llt ∅ 1 (new_IPCovSmearing example_rng) = Ok self
    ∧ ptbins self !! 1%nat = Some 20%R
    ∧ ptbin_of self 20 = 0.
Proof.
  destruct (bin_lookup example_llt ∅ 1 example_rng)
    as (self & HInit & Hpt & _ & _ & _ & Hties & _).
  exists self. split; [exact HInit|].
  assert (Hedge : ptbins self !! 1%nat = Some 20%R) by (rewrite Hpt; reflexivity).
  split; [exact Hedge|]. exact (Hties 1%nat 20%R Hedge).
Defined.

(** ** Bin resolution *)

(** C1. For etabin >= 0 (and a budget that covers the fall): a bin with a
    cached factor is returned as asked and the miss counter is left alone;
    a bin without one, at etabin = 0, raises the logic error; at
    etabin > 0 the call gives what the call for etabin - 1 gives and counts
    one miss more than it; the pt bin of the answer is the one asked. *)
Theorem getValidBins_fallback_rule (fuel : nat) (ptbin etabin : Z)
    (self : IPCovSmearing) :
  0 <= etabin < Z.of_nat fuel ->
  match lookup2 (fSmearingMatrices self) ptbin etabin with
  | Some _ =>
      fst (getValidBins fuel ptbin etabin self) = Ok (ptbin, etabin)
      ∧ fNBinMisses (snd (getValidBins fuel ptbin etabin self)) = fNBinMisses self
  | None =>
      if etabin =? 0 then
        fst (getValidBins fuel ptbin etabin self)
        = Fail (logic_error ("no eta bins for pt bin: " +:+ pretty 0))
      else
        forall fuel' : nat, etabin - 1 < Z.of_nat fuel' ->
          fst (getValidBins fuel ptbin etabin self)
          = fst (getValidBins fuel' ptbin (etabin - 1) self)
          ∧ fNBinMisses (snd (getValidBins fuel ptbin etabin self))
            = fNBinMisses (snd (getValidBins fuel' ptbin (etabin - 1) self)) + 1
  end
  ∧ (forall p e, fst (getValidBins fuel ptbin etabin self) = Ok (p, e) ->
       p = ptbin ∧ 0 <= e <= etabin
       ∧ is_Some (lookup2 (fSmearingMatrices self) ptbin e))
  ∧ fst (getValidBins fuel ptbin etabin self) ≠ Fail still_running.
Proof.
  intros Hfuel.
  destruct (getValidBins_fallback fuel ptbin etabin self) as (Hres & Hmiss & _).
  rewrite Hres, Hmiss, lookup2_row.
  set (m := row (fSmearingMatrices self) ptbin).
  destruct (fallback_ends fuel m etabin Hfuel) as (_ & Hends).
  split; [|split].
  - destruct fuel as [|fuel]; [lia|]. simpl.
    destruct (m !! etabin) as [l|] eqn:Hrow; simpl; [split; [done | lia]|].
    destruct (etabin =? 0) eqn:Hzero; simpl.
    { apply Z.eqb_eq in Hzero. by subst etabin. }
    apply Z.eqb_neq in Hzero.
    replace (etabin - 1 <? INT_MIN) with false
      by (symmetry; apply Z.ltb_ge; unfold INT_MIN; lia).
    simpl. intros fuel' Hfuel'.
    destruct (getValidBins_fallback fuel' ptbin (etabin - 1) self) as (-> & -> & _).
    fold m. rewrite (fallback_budget fuel fuel' m (etabin - 1)) by lia.
    split; [done | lia].
  - intros p e Hok.
    destruct Hends as [(e0 & Hfound & Hrange & Hsome & _)|(Hfail & _)].
    + rewrite Hfound in Hok. injection Hok as <- <-.
      split; [done|]. split; [lia|]. by rewrite lookup2_row.
    + rewrite Hfail in Hok. discriminate.
  - destruct Hends as [(e0 & -> & _)|(-> & _)]; discriminate.
Qed.

Lemma example_module_rows :
  lookup2 (fSmearingMatrices example_module) 1 2 = None
  ∧ lookup2 (fSmearingMatrices example_module) 1 1 = None
  ∧ lookup2 (fSmearingMatrices example_module) 1 0 = Some Identity
  ∧ lookup2 (fCovarianceMatrices example_module) 1 0 = Some Identity.
Proof. repeat split; reflexivity. Qed.

Lemma getValidBins_fallback_rule_witness :
  0 <= 2 < Z.of_nat 3
  ∧ fst (getValidBins 3 1 2 example_module) = fst (getValidBins 2 1 1 example_module)
  ∧ fNBinMisses (snd (getValidBins 3 1 2 example_module))
    = fNBinMisses (snd (getValidBins 2 1 1 example_module)) + 1
  ∧ fst (getValidBins 3 1 2 example_module) ≠ Fail still_running.
Proof.
  assert (Hfuel : 0 <= 2 < Z.of_nat 3) by lia.
  split; [exact Hfuel|].
  destruct (getValidBins_fallback_rule 3 1 2 example_module Hfuel) as (Hstep & _ & Hruns).
  rewrite (proj1 example_module_rows) in Hstep.
  destruct (Hstep 2%nat) as (Hres & Hmiss); [lia|].
  split; [exact Hres|]. split; [exact Hmiss | exact Hruns].
Defined.

(** C10. With etabin >= 0 the call ends, on a bin or on the logic error,
    after at most etabin misses.  The eta bin of a track with |eta| <= 0.0
    (eta = 0 for one) is -1; no row of the cache [Init] builds has a
    negative eta key; and from a negative etabin the call, however far the
    recursion is unfolded, is still running or has decremented the int
    below its range: it neither returns a bin nor raises the logic error,
    and so the smearing of such a track never completes. *)
Theorem getValidBins_runs_away_below_zero (llt : CovMatrix -> LLT) (file : TFile)
    (smear_mult : R) (rng : RandomGenerator) :
  exists self,
    Init llt file smear_mult (new_IPCovSmearing rng) = Ok self
    ∧ (forall (fuel : nat) ptbin etabin (s : IPCovSmearing),
         0 <= etabin < Z.of_nat fuel ->
         ((exists e, fst (getValidBins fuel ptbin etabin s) = Ok (ptbin, e))
          ∨ (exists what, fst (getValidBins fuel ptbin etabin s) = Fail (logic_error what)))
         ∧ 0 <= fNBinMisses (snd (getValidBins fuel ptbin etabin s)) - fNBinMisses s
             <= etabin)
    ∧ (forall eta : R, (Rabs eta <= 0.0)%R -> etabin_of self eta = -1)
    ∧ etabin_of self 0 = -1
    ∧ (forall ptbin etabin, etabin < 0 ->
         lookup2 (fSmearingMatrices self) ptbin etabin = None)
    ∧ (forall (fuel : nat) ptbin etabin, etabin < 0 ->
         fst (getValidBins fuel ptbin etabin self) = Fail still_running
         ∨ fst (getValidBins fuel ptbin etabin self) = Fail signed_overflow)
    ∧ (forall (fuel : nat) (w : World) track this p rest particle,
         module w = self ->
         store w !! track = Some this -> fArray this = p :: rest ->
         store w !! p = Some particle ->
         (Rabs (Eta (Momentum particle)) <= 0.0)%R ->
         smear_track fuel track w = Fail assertion_failed
         ∨ smear_track fuel track w = Fail still_running
         ∨ smear_track fuel track w = Fail signed_overflow).
Proof.
  exists (initialised llt file smear_mult rng).
  split; [apply Init_new|].
  destruct (initialised_bins llt file smear_mult rng) as (Hpt & Heta & _).
  assert (Hlow : forall eta : R, (Rabs eta <= 0.0)%R ->
            etabin_of (initialised llt file smear_mult rng) eta = -1).
  { intros eta Hle. unfold etabin_of. rewrite Heta. by apply find_bin_eta_low. }
  assert (Hkeys : forall ptbin etabin, etabin < 0 ->
            lookup2 (fSmearingMatrices (initialised llt file smear_mult rng)) ptbin etabin
            = None).
  { intros ptbin etabin Hneg. rewrite initialised_fSmearingMatrices.
    rewrite decide_False; [done|]. unfold bin_in_range. lia. }
  assert (Hruns : forall (fuel : nat) ptbin etabin, etabin < 0 ->
            fst (getValidBins fuel ptbin etabin (initialised llt file smear_mult rng))
            = Fail still_running
            ∨ fst (getValidBins fuel ptbin etabin (initialised llt file smear_mult rng))
              = Fail signed_overflow).
  { intros fuel ptbin etabin Hneg.
    destruct (getValidBins_fallback fuel ptbin etabin (initialised llt file smear_mult rng))
      as (-> & _).
    destruct (fallback_negative fuel
                (row (fSmearingMatrices (initialised llt file smear_mult rng)) ptbin)
                etabin Hneg) as [-> | ->]; [|by left|by right].
    intros e He. rewrite <- lookup2_row. by apply Hkeys. }
  split.
  { intros fuel ptbin etabin s Hfuel.
    destruct (getValidBins_fallback fuel ptbin etabin s) as (-> & -> & _).
    destruct (fallback_ends fuel (row (fSmearingMatrices s) ptbin) etabin Hfuel)
      as (Hbound & [(e & -> & _)|(-> & _)]).
    - split; [left; by exists e | lia].
    - split; [right; by eexists | lia]. }
  split; [exact Hlow|]. split; [apply Hlow; rewrite Rabs_R0; lra|].
  split; [exact Hkeys|]. split; [exact Hruns|].
  intros fuel w track this p rest particle Hself Hthis Hsub Hp Heta0.
  unfold smear_track, fetch. rewrite Hthis. simpl. rewrite Hsub, Hp. simpl.
  destruct (negb (length (fArray particle) =? 0)%nat); [by left|].
  rewrite Hself, (Hlow _ Heta0).
  destruct (Hruns fuel (ptbin_of (initialised llt file smear_mult rng)
                          (Pt (Momentum particle))) (-1)) as [Hrun|Hrun]; [lia| |].
  - destruct (getValidBins _ _ _ _) as [found self']. simpl in Hrun. subst found.
    right. by left.
  - destruct (getValidBins _ _ _ _) as [found self']. simpl in Hrun. subst found.
    right. by right.
Qed.

Lemma getValidBins_runs_away_below_zero_witness :
  exists self,
    Init example_llt ∅ 1 (new_IPCovSmearing example_rng) = Ok self
    ∧ 0 <= 2 < Z.of_nat 3
    ∧ 0 <= fNBinMisses (snd (getValidBins 3 0 2 self)) - fNBinMisses self <= 2
    ∧ -1 < 0
    ∧ (fst (getValidBins 5 0 (-1) self) = Fail still_running
       ∨ fst (getValidBins 5 0 (-1) self) = Fail signed_overflow).
Proof.
  destruct (getValidBins_runs_away_below_zero example_llt ∅ 1 example_rng)
    as (self & HInit & Hends & _ & _ & _ & Hruns & _).
  exists self. split; [exact HInit|].
  assert (Hfuel : 0 <= 2 < Z.of_nat 3) by lia.
  assert (Hneg : -1 < 0) by lia.
  split; [exact Hfuel|]. split; [exact (proj2 (Hends 3%nat 0 2 self Hfuel))|].
  split; [exact Hneg|]. exact (Hruns 5%nat 0 (-1) Hneg).
Defined.

(** ** One turn of Process *)

Lemma Rgeb_true (x y : R) : Rgeb x y = true <-> (x >= y)%R.
Proof. unfold Rgeb. destruct (Rge_dec x y); split; (done || discriminate). Qed.

Lemma Rgeb_false (x y : R) : Rgeb x y = false <-> (x < y)%R.
Proof. unfold Rgeb. destruct (Rge_dec x y); split; intros H; try done; lra. Qed.

Lemma resolves_cached fuel w particle bins self' :
  resolves fuel w particle bins self' ->
  same_but_misses self' (module w)
  ∧ exists l, lookup2 (fSmearingMatrices self') bins.1 bins.2 = Some l
              ∧ lookup2 (fSmearingMatrices (module w)) bins.1 bins.2 = Some l.
Proof.
  unfold resolves. intros Hres.
  destruct (getValidBins_fallback fuel
              (ptbin_of (module w) (Pt (Momentum particle)))
              (etabin_of (module w) (Eta (Momentum particle))) (module w))
    as (Hfst & _ & Hsame).
  rewrite Hres in Hfst, Hsame. simpl in Hfst, Hsame.
  split; [exact Hsame|].
  set (m := row (fSmearingMatrices (module w))
              (ptbin_of (module w) (Pt (Momentum particle)))) in *.
  assert (Hcached : forall fuel etabin e,
            fst (fallback fuel m etabin) = Ok e -> is_Some (m !! e)).
  { clear. induction fuel as [|fuel IH]; intros etabin e; simpl; [discriminate|].
    destruct (m !! etabin) as [l|] eqn:Hrow; simpl.
    - intros H. injection H as <-. by rewrite Hrow.
    - destruct (etabin =? 0); simpl; [discriminate|].
      destruct (etabin - 1 <? INT_MIN); simpl; [discriminate|]. apply IH. }
  destruct (fst (fallback fuel m _)) as [e|f] eqn:Hfb; [|discriminate].
  injection Hfst as ->. simpl.
  destruct (Hcached _ _ _ Hfb) as [l Hl]. exists l.
  destruct Hsame as (Hrows & _). rewrite !lookup2_row, Hrows. done.
Qed.

Lemma smear_track_runs fuel w track this particle bins self' cov :
  track_of w track this particle ->
  resolves fuel w particle bins self' ->
  lookup2 (fCovarianceMatrices (module w)) bins.1 bins.2 = Some cov ->
  exists l,
    lookup2 (fSmearingMatrices (module w)) bins.1 bins.2 = Some l
    ∧ smear_track fuel track w
      = (filled ← fill_smeared_track particle this
                    (smeared_parameters l (fRandomGenerator (module w)) particle this) cov;
         Ok {| module :=
                 set_fRandomGenerator
                   (snd (getRandomVector (fRandomGenerator (module w)))) self';
               store :=
                 <[fresh (dom (store w)) := set_fArray (track :: nil) filled]>
                   (<[fresh (dom (store w)) := this]> (store w));
               fOutputArray := fOutputArray w ++ fresh (dom (store w)) :: nil |}).
Proof.
  intros (Hthis & (p & Hhead & Hp) & Hleaf) Hres Hcov.
  destruct (resolves_cached _ _ _ _ _ Hres)
    as ((_ & Hcov' & _ & _ & Hrng & _) & l & Hl' & Hl).
  exists l. split; [exact Hl|].
  unfold smear_track, fetch. rewrite Hthis. simpl.
  destruct (fArray this) as [|p' rest]; [discriminate|]. injection Hhead as ->.
  rewrite Hp. simpl. rewrite Hleaf. simpl.
  unfold resolves in Hres. rewrite Hres. simpl.
  unfold at2. rewrite Hl'. simpl.
  rewrite lookup_insert_eq. simpl. rewrite Hcov', Hcov. simpl.
  unfold smeared_parameters. rewrite Hrng. done.
Qed.

Lemma Reqb_true (x y : R) : Reqb x y = true <-> x = y.
Proof. unfold Reqb. destruct (Req_dec_T x y); split; (done || discriminate). Qed.

Lemma Reqb_false (x y : R) : Reqb x y = false <-> x <> y.
Proof. unfold Reqb. destruct (Req_dec_T x y); split; (done || discriminate). Qed.

Lemma cosh_positive (x : R) : (0 < cosh x)%R.
Proof. unfold cosh. pose proof (exp_pos x). pose proof (exp_pos (- x)). lra. Qed.

Lemma reconstructed_pt_None particle smeared :
  reconstructed_pt particle smeared = None <-> smeared TrackParam.QOVERP = 0%R.
Proof.
  unfold reconstructed_pt. pose proof (cosh_positive (Eta (Momentum particle))).
  destruct (Reqb _ 0) eqn:Hzero.
  - apply Reqb_true in Hzero. split; [intros _; nra | done].
  - apply Reqb_false in Hzero. split; [discriminate|]. intros Hq. rewrite Hq in Hzero.
    exfalso. apply Hzero. lra.
Qed.

Lemma reconstructed_pt_Some particle smeared :
  smeared TrackParam.QOVERP <> 0%R ->
  reconstructed_pt particle smeared
  = Some (IZR (Charge particle)
          / (smeared TrackParam.QOVERP * cosh (Eta (Momentum particle))))%R.
Proof.
  intros Hq. destruct (reconstructed_pt particle smeared) as [pt|] eqn:Hrec.
  - unfold reconstructed_pt in Hrec. destruct (Reqb _ 0); [discriminate | done].
  - by apply reconstructed_pt_None in Hrec.
Qed.

Lemma fill_smeared_track_asserts particle object smeared cov pt :
  Pt (Momentum particle) <> 0%R ->
  reconstructed_pt particle smeared = Some pt -> (pt < 0)%R ->
  fill_smeared_track particle object smeared cov = Fail assertion_failed.
Proof.
  intros Hpt Hrec Hneg. unfold reconstructed_pt in Hrec.
  destruct (Reqb _ 0) eqn:Hzero in Hrec; [discriminate|]. injection Hrec as <-.
  unfold fill_smeared_track. cbv zeta.
  apply Reqb_false in Hpt. rewrite Hpt, Hzero.
  apply Rgeb_false in Hneg. by rewrite Hneg.
Qed.

Lemma fill_smeared_track_nan particle object smeared cov :
  Pt (Momentum particle) <> 0%R ->
  reconstructed_pt particle smeared = None -> Charge particle = 0 ->
  fill_smeared_track particle object smeared cov = Fail assertion_failed.
Proof.
  intros Hpt Hrec Hq. unfold reconstructed_pt in Hrec.
  destruct (Reqb _ 0) eqn:Hzero in Hrec; [|discriminate].
  unfold fill_smeared_track. cbv zeta.
  apply Reqb_false in Hpt. rewrite Hpt, Hzero. by rewrite Hq.
Qed.

Lemma fill_smeared_track_fills particle object smeared cov pt :
  Pt (Momentum particle) <> 0%R ->
  reconstructed_pt particle smeared = Some pt -> (pt >= 0)%R ->
  (0 < tan (smeared TrackParam.THETA / 2))%R ->
  exists filled,
    fill_smeared_track particle object smeared cov = Ok filled
    ∧ Momentum filled
      = SetPtEtaPhiM pt
          (- ln (tan (smeared TrackParam.THETA / 2))) (smeared TrackParam.PHI)
          (M (Momentum particle))
    ∧ Dxy filled = smeared TrackParam.D0
    ∧ Zd filled = smeared TrackParam.Z0
    ∧ Xd filled
      = (smeared TrackParam.D0
         * cos (Phi (Momentum particle) - pi / 2
                + (smeared TrackParam.PHI - Phi (Momentum particle))))%R
    ∧ Yd filled
      = (smeared TrackParam.D0
         * sin (Phi (Momentum particle) - pi / 2
                + (smeared TrackParam.PHI - Phi (Momentum particle))))%R
    ∧ (forall i, (i < 5)%nat -> trkPar filled i = smeared i)
    ∧ trkCov filled = set_covariance (trkCov object) cov
    ∧ Charge filled = Charge object ∧ fArray filled = fArray object.
Proof.
  intros Hpt Hrec Hpos Htan. unfold reconstructed_pt in Hrec.
  destruct (Reqb _ 0) eqn:Hzero in Hrec; [discriminate|]. injection Hrec as <-.
  unfold fill_smeared_track. cbv zeta.
  apply Reqb_false in Hpt. rewrite Hpt, Hzero.
  apply Rgeb_true in Hpos. rewrite Hpos.
  apply Rgtb_true in Htan. rewrite Htan. cbn [negb].
  eexists. split; [reflexivity|]. simpl.
  repeat split. intros i Hi. apply Nat.ltb_lt in Hi. by rewrite Hi.
Qed.

Lemma fill_smeared_track_finite particle object smeared cov filled :
  fill_smeared_track particle object smeared cov = Ok filled ->
  Pt (Momentum particle) <> 0%R
  ∧ exists pt, reconstructed_pt particle smeared = Some pt ∧ (pt >= 0)%R
               ∧ (0 < tan (smeared TrackParam.THETA / 2))%R.
Proof.
  unfold fill_smeared_track, reconstructed_pt. cbv zeta.
  destruct (Reqb (Pt (Momentum particle)) 0) eqn:Hpt; [discriminate|].
  apply Reqb_false in Hpt.
  destruct (Reqb _ 0); [by destruct (Charge particle =? 0)|].
  destruct (Rgeb _ 0) eqn:Hpos; [|discriminate]. apply Rgeb_true in Hpos.
  destruct (Rgtb _ 0) eqn:Htan; [|discriminate]. apply Rgtb_true in Htan.
  intros _. split; [done|]. eexists. split; [reflexivity|]. split; [done | lra].
Qed.

(** ** The parameter transform *)

Section Transform.
Local Open Scope R_scope.

Lemma eta_of_theta (eta : R) : - ln (tan (2 * atan (exp (- eta)) / 2)) = eta.
Proof.
  replace (2 * atan (exp (- eta)) / 2) with (atan (exp (- eta))) by lra.
  rewrite tan_atan, ln_exp. lra.
Qed.

Lemma pt_of_qoverp (q pt c : R) :
  q <> 0 -> pt <> 0 -> c <> 0 -> q / (q / (pt * c) * c) = pt.
Proof. intros Hq Hpt Hc. field. done. Qed.

Lemma cos_quarter_back (phi : R) : cos (phi - PI / 2) = sin phi.
Proof. rewrite cos_minus, cos_PI2, sin_PI2. lra. Qed.

Lemma sin_quarter_back (phi : R) : sin (phi - PI / 2) = - cos phi.
Proof. rewrite sin_minus, cos_PI2, sin_PI2. lra. Qed.

Lemma d0_of_displacement (xd yd pt phi : R) :
  pt <> 0 ->
  (xd * (pt * sin phi) - yd * (pt * cos phi)) / pt = xd * sin phi - yd * cos phi.
Proof. intros Hpt. field. done. Qed.

(** The displacement rebuilt from d0 is the one given exactly when the
    given one is orthogonal to the direction of the momentum. *)
Lemma displacement_rebuilt (xd yd phi : R) :
  (xd * sin phi - yd * cos phi) * sin phi = xd
  ∧ (xd * sin phi - yd * cos phi) * - cos phi = yd
  <-> xd * cos phi + yd * sin phi = 0.
Proof.
  pose proof (sin2_cos2 phi) as Hunit. unfold Rsqr in Hunit.
  set (s := sin phi) in *. set (c := cos phi) in *.
  assert (Hxd : xd * (s * s + c * c) = xd) by (rewrite Hunit; lra).
  assert (Hyd : yd * (s * s + c * c) = yd) by (rewrite Hunit; lra).
  split.
  - intros [Hx Hy].
    assert (Hc : c * (xd * c + yd * s) = 0) by lra.
    assert (Hs : s * (xd * c + yd * s) = 0) by lra.
    assert (Hsplit : xd * c + yd * s
                     = c * (c * (xd * c + yd * s)) + s * (s * (xd * c + yd * s))).
    { transitivity ((xd * c + yd * s) * (s * s + c * c)); [rewrite Hunit|]; ring. }
    rewrite Hsplit, Hc, Hs. ring.
  - intros Horth.
    assert (Hc : c * (xd * c + yd * s) = 0) by (rewrite Horth; ring).
    assert (Hs : s * (xd * c + yd * s) = 0) by (rewrite Horth; ring).
    split; lra.
Qed.
End Transform.

Lemma track_parameters_coefficients (particle track : Candidate) :
  (Pt (Momentum particle) <> 0)%R ->
  track_parameters particle track TrackParam.D0
    = (Xd track * sin (Phi (Momentum particle))
       - Yd track * cos (Phi (Momentum particle)))%R
  ∧ track_parameters particle track TrackParam.Z0 = Zd track
  ∧ track_parameters particle track TrackParam.PHI = Phi (Momentum particle)
  ∧ track_parameters particle track TrackParam.THETA
    = (2 * atan (exp (- Eta (Momentum particle))))%R
  ∧ track_parameters particle track TrackParam.QOVERP
    = (IZR (Charge particle)
       / (Pt (Momentum particle) * cosh (Eta (Momentum particle))))%R.
Proof.
  intros Hpt. unfold track_parameters, Px, Py. simpl.
  split; [by apply d0_of_displacement|]. done.
Qed.

(** C7. For a particle with pt > 0 the sampling-basis vector of [Process]
    is d0 = (xd*py - yd*px)/pt with px = pt*cos(phi), py = pt*sin(phi) (that
    is xd*sin(phi) - yd*cos(phi)), z0 = zd, phi, theta = 2*atan(exp(-eta))
    and qoverp = q/(pt*cosh(eta)); the scenario track has d0 = 0. *)
Theorem forward_parameter_transform (particle track : Candidate) :
  (0 < Pt (Momentum particle))%R ->
  let q := IZR (Charge particle) in
  let pt := Pt (Momentum particle) in
  let eta := Eta (Momentum particle) in
  let phi := Phi (Momentum particle) in
  let px := (pt * cos phi)%R in
  let py := (pt * sin phi)%R in
  track_parameters particle track TrackParam.D0
    = ((Xd track * py - Yd track * px) / pt)%R
  ∧ track_parameters particle track TrackParam.D0
    = (Xd track * sin phi - Yd track * cos phi)%R
  ∧ track_parameters particle track TrackParam.Z0 = Zd track
  ∧ track_parameters particle track TrackParam.PHI = phi
  ∧ track_parameters particle track TrackParam.THETA = (2 * atan (exp (- eta)))%R
  ∧ track_parameters particle track TrackParam.QOVERP = (q / (pt * cosh eta))%R
  ∧ track_parameters scenario_particle scenario_track TrackParam.D0 = 0%R.
Proof.
  intros Hpt. cbv zeta.
  split; [reflexivity|].
  destruct (track_parameters_coefficients particle track) as (Hd0 & Hrest); [lra|].
  split; [exact Hd0|].
  destruct Hrest as (Hz0 & Hphi & Htheta & Hq).
  split; [exact Hz0|]. split; [exact Hphi|]. split; [exact Htheta|]. split; [exact Hq|].
  unfold track_parameters, Px, Py. simpl. rewrite sin_0, cos_0. lra.
Qed.

Lemma forward_parameter_transform_witness :
  (0 < Pt (Momentum scenario_particle))%R
  ∧ track_parameters scenario_particle scenario_track TrackParam.D0
    = (Xd scenario_track * sin 0 - Yd scenario_track * cos 0)%R
  ∧ track_parameters scenario_particle scenario_track TrackParam.QOVERP
    = (1 / (50 * cosh 0))%R.
Proof.
  assert (Hpt : (0 < Pt (Momentum scenario_particle))%R) by (simpl; lra).
  split; [exact Hpt|].
  destruct (forward_parameter_transform scenario_particle scenario_track Hpt)
    as (_ & Hd0 & _ & _ & _ & Hq & _).
  split; [exact Hd0 | exact Hq].
Defined.

(** ** Smearing without noise *)

Lemma smeared_parameters_zero_noise l g particle this (i : nat) :
  vec_eq (fst (getRandomVector g)) (fun _ => 0%R) ->
  smeared_parameters l g particle this i = track_parameters particle this i.
Proof.
  intros Hzero. unfold smeared_parameters, vec_add, mat_vec, sum5.
  rewrite !Hzero by lia. lra.
Qed.

Lemma zero_noise_is_finite (particle this : Candidate) :
  Charge particle ≠ 0 ->
  (0 < Pt (Momentum particle))%R ->
  reconstructed_pt particle (track_parameters particle this)
  = Some (Pt (Momentum particle))
  ∧ (0 < tan (track_parameters particle this TrackParam.THETA / 2))%R.
Proof.
  intros Hq Hpt.
  destruct (track_parameters_coefficients particle this)
    as (_ & _ & _ & Htheta & Hqoverp); [lra|].
  pose proof (cosh_positive (Eta (Momentum particle))) as Hcosh.
  split.
  - rewrite reconstructed_pt_Some.
    + f_equal. rewrite Hqoverp.
      apply pt_of_qoverp; [by apply not_0_IZR | lra | lra].
    + rewrite Hqoverp. unfold Rdiv.
      apply Rmult_integral_contrapositive_currified; [by apply not_0_IZR|].
      apply Rinv_neq_0_compat. nra.
  - rewrite Htheta.
    replace (2 * atan (exp (- Eta (Momentum particle))) / 2)%R
      with (atan (exp (- Eta (Momentum particle)))) by lra.
    rewrite tan_atan. apply exp_pos.
Qed.

Lemma smear_track_zero_noise (fuel : nat) (w : World) (track : address)
    (this particle : Candidate) (bins : Z * Z) (self' : IPCovSmearing)
    (cov : CovMatrix) (pt : R) :
  track_of w track this particle ->
  resolves fuel w particle bins self' ->
  lookup2 (fCovarianceMatrices (module w)) bins.1 bins.2 = Some cov ->
  vec_eq (fst (getRandomVector (fRandomGenerator (module w)))) (fun _ => 0%R) ->
  Pt (Momentum particle) <> 0%R ->
  reconstructed_pt particle (track_parameters particle this) = Some pt ->
  (pt >= 0)%R ->
  (0 < tan (track_parameters particle this TrackParam.THETA / 2))%R ->
  exists w' out,
    smear_track fuel track w = Ok w'
    ∧ fOutputArray w' = fOutputArray w ++ fresh (dom (store w)) :: nil
    ∧ store w' !! fresh (dom (store w)) = Some out
    ∧ Momentum out
      = SetPtEtaPhiM pt
          (- ln (tan (track_parameters particle this TrackParam.THETA / 2)))
          (track_parameters particle this TrackParam.PHI) (M (Momentum particle))
    ∧ Dxy out = track_parameters particle this TrackParam.D0
    ∧ Zd out = track_parameters particle this TrackParam.Z0
    ∧ Xd out
      = (track_parameters particle this TrackParam.D0
         * cos (Phi (Momentum particle) - pi / 2
                + (track_parameters particle this TrackParam.PHI
                   - Phi (Momentum particle))))%R
    ∧ Yd out
      = (track_parameters particle this TrackParam.D0
         * sin (Phi (Momentum particle) - pi / 2
                + (track_parameters particle this TrackParam.PHI
                   - Phi (Momentum particle))))%R.
Proof.
  intros Htrack Hres Hcov Hzero Hpt0 Hrec Hpos Htan.
  destruct (smear_track_runs fuel w track this particle bins self' cov Htrack Hres Hcov)
    as (l & _ & Hrun).
  set (smeared := smeared_parameters l (fRandomGenerator (module w)) particle this) in *.
  assert (Hsm : forall i, smeared i = track_parameters particle this i).
  { intros i. by apply smeared_parameters_zero_noise. }
  assert (Hrpt : reconstructed_pt particle smeared = Some pt).
  { rewrite <- Hrec. unfold reconstructed_pt. by rewrite Hsm. }
  destruct (fill_smeared_track_fills particle this smeared cov pt Hpt0 Hrpt Hpos)
    as (filled & Hfill & HM & HDxy & HZd & HXd & HYd & _); [by rewrite Hsm|].
  rewrite Hfill in Hrun. simpl in Hrun.
  eexists _, (set_fArray (track :: nil) filled).
  split; [exact Hrun|]. split; [done|].
  split; [simpl store; by rewrite lookup_insert_eq|].
  simpl. rewrite HDxy, HZd, HXd, HYd, HM, !Hsm. done.
Qed.

(** C2, as the code has it.  When the drawn vector is zero, the charge is
    not 0 and pt > 0, the smearing completes and the output track has the
    particle's momentum (pt, eta, phi, mass), Dxy equal to the d0 computed
    from the input, and Zd equal to the input's.  Its Xd and Yd are rebuilt
    from d0 as d0*sin(phi) and -d0*cos(phi): they equal the input's Xd and
    Yd exactly when the input displacement is orthogonal to the momentum
    direction, xd*cos(phi) + yd*sin(phi) = 0. *)
Theorem zero_noise_smearing (fuel : nat) (w : World) (track : address)
    (this particle : Candidate) (bins : Z * Z) (self' : IPCovSmearing)
    (cov : CovMatrix) :
  track_of w track this particle ->
  resolves fuel w particle bins self' ->
  lookup2 (fCovarianceMatrices (module w)) bins.1 bins.2 = Some cov ->
  vec_eq (fst (getRandomVector (fRandomGenerator (module w)))) (fun _ => 0%R) ->
  Charge particle ≠ 0 ->
  (0 < Pt (Momentum particle))%R ->
  exists w' smeared_track out,
    smear_track fuel track w = Ok w'
    ∧ fOutputArray w' = fOutputArray w ++ smeared_track :: nil
    ∧ store w' !! smeared_track = Some out
    ∧ Momentum out = Momentum particle
    ∧ Dxy out = track_parameters particle this TrackParam.D0
    ∧ Zd out = Zd this
    ∧ Xd out = (Dxy out * sin (Phi (Momentum particle)))%R
    ∧ Yd out = (Dxy out * - cos (Phi (Momentum particle)))%R
    ∧ (Xd out = Xd this ∧ Yd out = Yd this
       <-> (Xd this * cos (Phi (Momentum particle))
            + Yd this * sin (Phi (Momentum particle)) = 0)%R).
Proof.
  intros Htrack Hres Hcov Hzero Hq Hpt.
  destruct (track_parameters_coefficients particle this)
    as (Hd0 & Hz0 & Hphi & Htheta & Hqoverp); [lra|].
  destruct (zero_noise_is_finite particle this Hq Hpt) as (Hrpt & Htan).
  destruct (smear_track_zero_noise fuel w track this particle bins self' cov
              (Pt (Momentum particle)) Htrack Hres Hcov Hzero)
    as (w' & out & Hrun & Harray & Hout & HM & HDxy & HZd & HXd & HYd);
    [lra | exact Hrpt | lra | exact Htan |].
  exists w', (fresh (dom (store w))), out.
  split; [exact Hrun|]. split; [exact Harray|]. split; [exact Hout|].
  rewrite HM, HDxy, HZd, HXd, HYd, Hz0, Hphi, Htheta, Hd0.
  unfold pi. rewrite eta_of_theta.
  replace (Phi (Momentum particle) - PI / 2
           + (Phi (Momentum particle) - Phi (Momentum particle)))%R
    with (Phi (Momentum particle) - PI / 2)%R by lra.
  rewrite cos_quarter_back, sin_quarter_back.
  split.
  { unfold SetPtEtaPhiM. rewrite Rabs_right by lra. by destruct (Momentum particle). }
  split; [done|]. split; [done|]. split; [done|]. split; [done|].
  apply displacement_rebuilt.
Qed.

Lemma example_track_of : track_of example_world 1%positive example_track example_particle.
Proof.
  split; [reflexivity|]. split; [|reflexivity].
  exists 2%positive. split; reflexivity.
Qed.

Lemma example_bins :
  ptbin_of example_module 50 = 1 ∧ etabin_of example_module 0.5 = 1.
Proof.
  unfold ptbin_of, etabin_of. simpl ptbins. simpl etabins.
  rewrite Rabs_right by lra. split; compare_edges.
Qed.

Lemma example_resolves :
  resolves 2 example_world example_particle (1, 0)
    (snd (getValidBins 2 1 1 example_module)).
Proof.
  unfold resolves. simpl module. simpl Pt. simpl Eta.
  destruct example_bins as [-> ->].
  destruct (getValidBins_fallback 2 1 1 example_module) as (Hfst & _).
  destruct (getValidBins 2 1 1 example_module) as [found self']. simpl in *.
  rewrite Hfst. reflexivity.
Qed.

Lemma example_zero_noise :
  vec_eq (fst (getRandomVector (fRandomGenerator (module example_world))))
    (fun _ => 0%R).
Proof. intros i _. reflexivity. Qed.

Lemma zero_noise_smearing_witness :
  track_of example_world 1%positive example_track example_particle
  ∧ resolves 2 example_world example_particle (1, 0)
      (snd (getValidBins 2 1 1 example_module))
  ∧ exists w' smeared_track out,
      smear_track 2 1%positive example_world = Ok w'
      ∧ store w' !! smeared_track = Some out
      ∧ Momentum out = Momentum example_particle
      ∧ Zd out = Zd example_track.
Proof.
  split; [exact example_track_of|]. split; [exact example_resolves|].
  destruct (zero_noise_smearing 2 example_world 1%positive example_track
              example_particle (1, 0) (snd (getValidBins 2 1 1 example_module))
              Identity example_track_of example_resolves)
    as (w' & smeared_track & out & Hrun & _ & Hout & HM & _ & HZd & _).
  - exact (proj2 (proj2 (proj2 example_module_rows))).
  - exact example_zero_noise.
  - simpl. lia.
  - simpl. lra.
  - exists w', smeared_track, out. repeat split; assumption.
Defined.

(** C2, as stated, fails on the displacement: [example_track] has charge 1,
    pt = 50 and displacement (0.001, 0, 0), the drawn vector is zero, the
    smearing completes, and the output track has Xd = 0. *)
Lemma zero_noise_moves_displacement :
  vec_eq (fst (getRandomVector (fRandomGenerator (module example_world))))
    (fun _ => 0%R)
  ∧ Charge example_particle ≠ 0
  ∧ (0 < Pt (Momentum example_particle))%R
  ∧ exists w' smeared_track out,
      smear_track 2 1%positive example_world = Ok w'
      ∧ fOutputArray w' = smeared_track :: nil
      ∧ store w' !! smeared_track = Some out
      ∧ Xd out = 0%R
      ∧ Xd example_track = 0.001%R
      ∧ Xd out ≠ Xd example_track.
Proof.
  split; [exact example_zero_noise|].
  split; [simpl; lia|]. split; [simpl; lra|].
  destruct (zero_noise_is_finite example_particle example_track) as (Hrec & Htan);
    [simpl; lia | simpl; lra |].
  destruct (smear_track_zero_noise 2 example_world 1%positive example_track
              example_particle (1, 0) (snd (getValidBins 2 1 1 example_module))
              Identity (Pt (Momentum example_particle))
              example_track_of example_resolves)
    as (w' & out & Hrun & Harray & Hout & _ & _ & _ & HXd & _).
  - exact (proj2 (proj2 (proj2 example_module_rows))).
  - exact example_zero_noise.
  - simpl. lra.
  - exact Hrec.
  - simpl. lra.
  - exact Htan.
  - exists w', (fresh (dom (store example_world))), out.
    assert (Hzero : Xd out = 0%R).
    { rewrite HXd. unfold track_parameters, Px, Py. simpl. rewrite sin_0. lra. }
    split; [exact Hrun|]. split; [exact Harray|]. split; [exact Hout|].
    split; [exact Hzero|]. split; [reflexivity|].
    rewrite Hzero. simpl. lra.
Qed.

(** ** The assertion on the reconstructed pt *)

(** C8, as the code has it.  Once the bins are resolved, for a particle
    whose pt is not 0: a negative reconstructed pt fails the assertion and
    the smearing stops, and so does the NaN of a charge 0 divided by a
    smeared qoverp 0; a reconstructed pt that is zero or positive passes
    the assertion, and the output track carries that pt when tan(theta'/2)
    is positive; a smearing that completes has a reconstructed pt, which is
    not negative and is the pt of its output. *)
Theorem negative_reconstructed_pt_is_fatal (fuel : nat) (w : World) (track : address)
    (this particle : Candidate) (bins : Z * Z) (self' : IPCovSmearing)
    (cov : CovMatrix) :
  track_of w track this particle ->
  resolves fuel w particle bins self' ->
  lookup2 (fCovarianceMatrices (module w)) bins.1 bins.2 = Some cov ->
  Pt (Momentum particle) <> 0%R ->
  exists l,
    lookup2 (fSmearingMatrices (module w)) bins.1 bins.2 = Some l
    ∧ (forall pt,
         reconstructed_pt particle
           (smeared_parameters l (fRandomGenerator (module w)) particle this) = Some pt ->
         (pt < 0)%R ->
         smear_track fuel track w = Fail assertion_failed)
    ∧ (reconstructed_pt particle
         (smeared_parameters l (fRandomGenerator (module w)) particle this) = None ->
       Charge particle = 0 ->
       smear_track fuel track w = Fail assertion_failed)
    ∧ (forall pt,
         reconstructed_pt particle
           (smeared_parameters l (fRandomGenerator (module w)) particle this) = Some pt ->
         (pt >= 0)%R ->
         (0 < tan (smeared_parameters l (fRandomGenerator (module w)) particle this
                     TrackParam.THETA / 2))%R ->
         exists w' out,
           smear_track fuel track w = Ok w'
           ∧ fOutputArray w' = fOutputArray w ++ fresh (dom (store w)) :: nil
           ∧ store w' !! fresh (dom (store w)) = Some out
           ∧ Pt (Momentum out) = pt)
    ∧ (forall w', smear_track fuel track w = Ok w' ->
         exists pt out,
           reconstructed_pt particle
             (smeared_parameters l (fRandomGenerator (module w)) particle this) = Some pt
           ∧ (pt >= 0)%R
           ∧ store w' !! fresh (dom (store w)) = Some out
           ∧ Pt (Momentum out) = pt).
Proof.
  intros Htrack Hres Hcov Hpt0.
  destruct (smear_track_runs fuel w track this particle bins self' cov Htrack Hres Hcov)
    as (l & Hl & Hrun).
  exists l. split; [exact Hl|].
  set (smeared := smeared_parameters l (fRandomGenerator (module w)) particle this) in *.
  assert (Hemit : forall pt,
            reconstructed_pt particle smeared = Some pt -> (pt >= 0)%R ->
            (0 < tan (smeared TrackParam.THETA / 2))%R ->
            exists w' out,
              smear_track fuel track w = Ok w'
              ∧ fOutputArray w' = fOutputArray w ++ fresh (dom (store w)) :: nil
              ∧ store w' !! fresh (dom (store w)) = Some out
              ∧ Pt (Momentum out) = pt).
  { intros pt Hrec Hpos Htan.
    destruct (fill_smeared_track_fills particle this smeared cov pt Hpt0 Hrec Hpos Htan)
      as (filled & Hfill & HM & _).
    rewrite Hfill in Hrun. simpl in Hrun.
    eexists _, (set_fArray (track :: nil) filled).
    split; [exact Hrun|]. split; [done|].
    split; [simpl store; by rewrite lookup_insert_eq|].
    simpl. rewrite HM. simpl. by apply Rabs_right. }
  split; [|split; [|split; [exact Hemit|]]].
  - intros pt Hrec Hneg.
    rewrite Hrun, (fill_smeared_track_asserts _ _ _ _ _ Hpt0 Hrec Hneg). done.
  - intros Hrec Hq.
    rewrite Hrun, (fill_smeared_track_nan _ _ _ _ Hpt0 Hrec Hq). done.
  - intros w' Hok.
    destruct (fill_smeared_track particle this smeared cov) as [filled|e] eqn:Hfill;
      [|rewrite Hrun in Hok; discriminate].
    destruct (fill_smeared_track_finite _ _ _ _ _ Hfill) as (_ & pt & Hrec & Hpos & Htan).
    destruct (Hemit pt Hrec Hpos Htan) as (w1 & out & Hok1 & _ & Hout & Hpt).
    rewrite Hok in Hok1. injection Hok1 as <-.
    by exists pt, out.
Qed.

Lemma example_world_with_ready g particle track :
  Pt (Momentum particle) = 50%R -> Eta (Momentum particle) = 0.5%R ->
  fArray track = 2%positive :: nil -> fArray particle = nil ->
  track_of (example_world_with g particle track) 1%positive track particle
  ∧ resolves 2 (example_world_with g particle track) particle (1, 0)
      (snd (getValidBins 2 1 1 (set_fRandomGenerator g example_module)))
  ∧ lookup2 (fCovarianceMatrices (module (example_world_with g particle track))) 1 0
    = Some Identity.
Proof.
  intros Hpt Heta Hsub Hleaf. split; [|split].
  - split; [reflexivity|]. split; [|exact Hleaf].
    exists 2%positive. rewrite Hsub. split; reflexivity.
  - unfold resolves. simpl module. rewrite Hpt, Heta.
    change (ptbin_of (set_fRandomGenerator g example_module) 50)
      with (ptbin_of example_module 50).
    change (etabin_of (set_fRandomGenerator g example_module) 0.5)
      with (etabin_of example_module 0.5).
    destruct example_bins as [-> ->].
    destruct (getValidBins_fallback 2 1 1 (set_fRandomGenerator g example_module))
      as (Hfst & _).
    destruct (getValidBins 2 1 1 (set_fRandomGenerator g example_module))
      as [found self']. simpl in *.
    rewrite Hfst. reflexivity.
  - reflexivity.
Qed.

Lemma flipped_qoverp :
  smeared_parameters Identity flipping_rng example_particle example_track
    TrackParam.QOVERP = (- 1 / (50 * cosh 0.5))%R.
Proof.
  unfold smeared_parameters, vec_add, mat_vec, sum5, Identity, track_parameters.
  simpl. pose proof (cosh_positive 0.5). field. lra.
Qed.

Lemma negative_reconstructed_pt_is_fatal_witness :
  track_of (example_world_with flipping_rng example_particle example_track)
    1%positive example_track example_particle
  ∧ lookup2 (fCovarianceMatrices
               (module (example_world_with flipping_rng example_particle example_track)))
      1 0 = Some Identity
  ∧ reconstructed_pt example_particle
      (smeared_parameters Identity flipping_rng example_particle example_track)
    = Some (- 50)%R
  ∧ smear_track 2 1%positive
      (example_world_with flipping_rng example_particle example_track)
    = Fail assertion_failed.
Proof.
  destruct (example_world_with_ready flipping_rng example_particle example_track
              eq_refl eq_refl eq_refl eq_refl) as (Htrack & Hres & Hcov).
  split; [exact Htrack|]. split; [exact Hcov|].
  pose proof (cosh_positive 0.5) as Hcosh.
  assert (Hpt : reconstructed_pt example_particle
                  (smeared_parameters Identity flipping_rng example_particle example_track)
                = Some (- 50)%R).
  { rewrite reconstructed_pt_Some; rewrite flipped_qoverp.
    - f_equal. simpl. field. lra.
    - unfold Rdiv. apply Rmult_integral_contrapositive_currified; [lra|].
      apply Rinv_neq_0_compat. lra. }
  split; [exact Hpt|].
  destruct (negative_reconstructed_pt_is_fatal 2
              (example_world_with flipping_rng example_particle example_track)
              1%positive example_track example_particle (1, 0)
              (snd (getValidBins 2 1 1 (set_fRandomGenerator flipping_rng example_module)))
              Identity Htrack Hres Hcov) as (l & Hl & Hneg & _).
  { simpl. lra. }
  assert (l = Identity) as -> by (injection Hl as <-; reflexivity).
  apply (Hneg (- 50)%R); [exact Hpt | lra].
Defined.

Lemma neutral_smeared_parameters :
  smeared_parameters Identity ones_rng neutral_particle neutral_track TrackParam.QOVERP
  = 1%R
  ∧ (0 < tan (smeared_parameters Identity ones_rng neutral_particle neutral_track
                TrackParam.THETA / 2))%R.
Proof.
  split.
  - unfold smeared_parameters, vec_add, mat_vec, sum5, Identity, track_parameters.
    simpl. unfold Rdiv. lra.
  - assert (Htheta : smeared_parameters Identity ones_rng neutral_particle neutral_track
                       TrackParam.THETA = (1 + 2 * atan (exp (Ropp 0.5)))%R).
    { unfold smeared_parameters, vec_add, mat_vec, sum5, Identity, track_parameters.
      simpl. lra. }
    rewrite Htheta.
    assert (Hlow : (0 < atan (exp (Ropp 0.5)))%R).
    { rewrite <- atan_0. apply atan_increasing. apply exp_pos. }
    assert (Hhigh : (atan (exp (Ropp 0.5)) < PI / 4)%R).
    { rewrite <- atan_1. apply atan_increasing. rewrite <- exp_0.
      apply exp_increasing. lra. }
    pose proof PI2_1. apply tan_gt_0; lra.
Qed.

(** C8, as stated, fails at zero: for [neutral_particle] the smeared qoverp
    is 1, the reconstructed pt is 0, the assertion passes and the output
    track is emitted with pt = 0. *)
Lemma zero_reconstructed_pt_is_emitted :
  smeared_parameters Identity ones_rng neutral_particle neutral_track TrackParam.QOVERP
  = 1%R
  ∧ reconstructed_pt neutral_particle
      (smeared_parameters Identity ones_rng neutral_particle neutral_track) = Some 0%R
  ∧ lookup2 (fSmearingMatrices (module neutral_world)) 1 0 = Some Identity
  ∧ exists w' smeared_track out,
      smear_track 2 1%positive neutral_world = Ok w'
      ∧ fOutputArray w' = smeared_track :: nil
      ∧ store w' !! smeared_track = Some out
      ∧ Pt (Momentum out) = 0%R.
Proof.
  destruct neutral_smeared_parameters as (Hq & Htan).
  assert (Hpt : reconstructed_pt neutral_particle
                  (smeared_parameters Identity ones_rng neutral_particle neutral_track)
                = Some 0%R).
  { rewrite reconstructed_pt_Some; rewrite Hq; [|lra].
    f_equal. simpl. unfold Rdiv. lra. }
  split; [exact Hq|]. split; [exact Hpt|]. split; [reflexivity|].
  destruct (example_world_with_ready ones_rng neutral_particle neutral_track
              eq_refl eq_refl eq_refl eq_refl) as (Htrack & Hres & Hcov).
  destruct (smear_track_runs 2 neutral_world 1%positive neutral_track
              neutral_particle (1, 0)
              (snd (getValidBins 2 1 1 (set_fRandomGenerator ones_rng example_module)))
              Identity Htrack Hres Hcov) as (l & Hl & Hrun).
  assert (l = Identity) as -> by (injection Hl as <-; reflexivity).
  simpl fRandomGenerator in Hrun.
  destruct (fill_smeared_track_fills neutral_particle neutral_track
              (smeared_parameters Identity ones_rng neutral_particle neutral_track)
              Identity 0%R) as (filled & Hfill & HM & _);
    [simpl; lra | exact Hpt | lra | exact Htan |].
  rewrite Hfill in Hrun. simpl in Hrun.
  eexists _, (fresh (dom (store neutral_world))), (set_fArray (1%positive :: nil) filled).
  split; [exact Hrun|]. split; [done|].
  split; [simpl store; by rewrite lookup_insert_eq|].
  simpl. rewrite HM. simpl. apply Rabs_R0.
Qed.

(** ** The input track is left alone *)

Lemma smear_track_completed (fuel : nat) (w : World) (track : address) (w' : World) :
  smear_track fuel track w = Ok w' ->
  exists this particle bins self' cov,
    track_of w track this particle
    ∧ resolves fuel w particle bins self'
    ∧ lookup2 (fCovarianceMatrices (module w)) bins.1 bins.2 = Some cov.
Proof.
  unfold smear_track, fetch, track_of, resolves.
  destruct (store w !! track) as [this|] eqn:Hthis; simpl; [|discriminate].
  destruct (fArray this) as [|p rest] eqn:Hsub; simpl; [discriminate|].
  destruct (store w !! p) as [particle|] eqn:Hp; simpl; [|discriminate].
  destruct (length (fArray particle) =? 0)%nat eqn:Hleaf; simpl; [|discriminate].
  pose proof (getValidBins_fallback fuel
                (ptbin_of (module w) (Pt (Momentum particle)))
                (etabin_of (module w) (Eta (Momentum particle))) (module w))
    as (_ & _ & Hsame).
  destruct (getValidBins _ _ _ _) as [[bins|f] self'] eqn:Hres; simpl; [|discriminate].
  simpl in Hsame. destruct Hsame as (_ & Hcov & _).
  unfold at2.
  destruct (lookup2 (fSmearingMatrices self') bins.1 bins.2); simpl; [|discriminate].
  rewrite lookup_insert_eq. simpl. rewrite Hcov.
  destruct (lookup2 (fCovarianceMatrices (module w)) bins.1 bins.2) as [cov|] eqn:Hc;
    simpl; [|discriminate].
  intros _. exists this, particle, bins, self', cov.
  split; [|done]. split; [done|]. split; [exists p; by rewrite Hsub|].
  apply Nat.eqb_eq in Hleaf. by destruct (fArray particle).
Qed.

Lemma smear_track_outcome (fuel : nat) (w : World) (track : address) (w' : World) :
  smear_track fuel track w = Ok w' ->
  exists this particle bins self' l cov filled,
    track_of w track this particle
    ∧ lookup2 (fSmearingMatrices (module w)) bins.1 bins.2 = Some l
    ∧ lookup2 (fCovarianceMatrices (module w)) bins.1 bins.2 = Some cov
    ∧ fill_smeared_track particle this
        (smeared_parameters l (fRandomGenerator (module w)) particle this) cov
      = Ok filled
    ∧ w' = {| module :=
                set_fRandomGenerator
                  (snd (getRandomVector (fRandomGenerator (module w)))) self';
              store :=
                <[fresh (dom (store w)) := set_fArray (track :: nil) filled]>
                  (<[fresh (dom (store w)) := this]> (store w));
              fOutputArray := fOutputArray w ++ fresh (dom (store w)) :: nil |}.
Proof.
  intros Hok.
  destruct (smear_track_completed fuel w track w' Hok)
    as (this & particle & bins & self' & cov & Htrack & Hres & Hcov).
  destruct (smear_track_runs fuel w track this particle bins self' cov Htrack Hres Hcov)
    as (l & Hl & Hrun).
  rewrite Hrun in Hok.
  destruct (fill_smeared_track particle this
              (smeared_parameters l (fRandomGenerator (module w)) particle this) cov)
    as [filled|e] eqn:Hfill; simpl in Hok; [|discriminate].
  injection Hok as <-.
  by exists this, particle, bins, self', l, cov, filled.
Qed.

Lemma fresh_address_unused (store : Store) : store !! fresh (dom store) = None.
Proof. apply not_elem_of_dom. apply is_fresh. Qed.



(** The same over a whole call of [Process]: the candidates that existed are
    as they were, and one output is added per input track. *)
Lemma Process_keeps_candidates (fuel : nat) (fInputArray : list address) (w w' : World) :
  Process fuel fInputArray w = Ok w' ->
  (forall a c, store w !! a = Some c -> store w' !! a = Some c)
  ∧ length (fOutputArray w') = (length (fOutputArray w) + length fInputArray)%nat.
Proof.
  revert w. induction fInputArray as [|track rest IH]; intros w; simpl.
  - intros H. injection H as <-. split; [done | lia].
  - destruct (smear_track fuel track w) as [w1|e] eqn:Hstep; simpl; [|discriminate].
    intros Hrest. destruct (IH w1 Hrest) as (Hkept & Hlength).
    destruct (smear_track_outcome fuel w track w1 Hstep)
      as (this & particle & bins & self' & l & cov & filled & _ & _ & _ & _ & ->).
    simpl in *. split.
    + intros a c Ha. apply Hkept.
      assert (Hne : fresh (dom (store w)) ≠ a).
      { intros Heq. pose proof (fresh_address_unused (store w)) as Hfresh.
        rewrite Heq in Hfresh. congruence. }
      by rewrite !lookup_insert_ne.
    + rewrite Hlength, length_app. simpl. lia.
Qed.

(** * Further properties of the module *)

(** ** getValidBins *)

Lemma fallback_found (fuel : nat) (m : gmap Z CovMatrix) (etabin e : Z) :
  fst (fallback fuel m etabin) = Ok e ->
  e <= etabin ∧ is_Some (m !! e)
  ∧ snd (fallback fuel m etabin) = etabin - e
  ∧ forall e', e < e' <= etabin -> m !! e' = None.
Proof.
  revert etabin. induction fuel as [|fuel IH]; intros etabin; simpl; [discriminate|].
  destruct (m !! etabin) as [l|] eqn:Hrow; simpl.
  { intros H. injection H as <-. split; [lia|]. split; [by eexists|].
    split; [lia|]. intros e' He'. lia. }
  destruct (etabin =? 0); simpl; [discriminate|].
  destruct (etabin - 1 <? INT_MIN); simpl; [discriminate|].
  intros Hfound. destruct (IH (etabin - 1) Hfound) as (Hle & Hsome & Hcount & Hnone).
  split; [lia|]. split; [done|]. split; [lia|].
  intros e' He'. destruct (decide (e' = etabin)) as [->|]; [done|].
  apply Hnone. lia.
Qed.

Lemma fallback_counts_up (fuel : nat) (m : gmap Z CovMatrix) (etabin : Z) :
  0 <= snd (fallback fuel m etabin).
Proof.
  revert etabin. induction fuel as [|fuel IH]; intros etabin; simpl; [lia|].
  destruct (m !! etabin); simpl; [lia|].
  destruct (etabin =? 0); simpl; [lia|].
  destruct (etabin - 1 <? INT_MIN); simpl; [lia|].
  specialize (IH (etabin - 1)). lia.
Qed.

(** X1. For etabin >= 0 [getValidBins] returns the greatest cached eta bin
    of the row that is not above the one asked, and has counted one miss
    per bin it stepped over; it raises the logic error exactly when no bin
    from 0 to the one asked is cached, and by then it has counted etabin
    misses. *)
Theorem getValidBins_greatest_cached (fuel : nat) (ptbin etabin : Z)
    (self : IPCovSmearing) :
  0 <= etabin < Z.of_nat fuel ->
  (exists e,
     fst (getValidBins fuel ptbin etabin self) = Ok (ptbin, e)
     ∧ 0 <= e <= etabin
     ∧ is_Some (lookup2 (fSmearingMatrices self) ptbin e)
     ∧ (forall e', e < e' <= etabin ->
          lookup2 (fSmearingMatrices self) ptbin e' = None)
     ∧ fNBinMisses (snd (getValidBins fuel ptbin etabin self))
       = fNBinMisses self + (etabin - e))
  ∨ (fst (getValidBins fuel ptbin etabin self)
       = Fail (logic_error ("no eta bins for pt bin: " +:+ pretty 0))
     ∧ (forall e', 0 <= e' <= etabin ->
          lookup2 (fSmearingMatrices self) ptbin e' = None)
     ∧ fNBinMisses (snd (getValidBins fuel ptbin etabin self))
       = fNBinMisses self + etabin).
Proof.
  intros Hfuel.
  destruct (getValidBins_fallback fuel ptbin etabin self) as (Hres & Hmiss & _).
  destruct (fallback_ends fuel (row (fSmearingMatrices self) ptbin) etabin Hfuel)
    as (_ & [(e & Hfound & Hrange & Hsome & Hcount & Hnone)|(Hfail & Hcount & Hnone)]).
  - left. exists e. rewrite Hres, Hmiss, Hfound, Hcount.
    split; [done|]. split; [done|]. split; [by rewrite lookup2_row|].
    split; [|done]. intros e' He'. rewrite lookup2_row. by apply Hnone.
  - right. rewrite Hres, Hmiss, Hfail, Hcount.
    split; [done|]. split; [|done].
    intros e' He'. rewrite lookup2_row. by apply Hnone.
Qed.

Lemma getValidBins_greatest_cached_witness :
  0 <= 2 < Z.of_nat 3
  ∧ fst (getValidBins 3 1 2 example_module) = Ok (1, 0)
  ∧ fNBinMisses (snd (getValidBins 3 1 2 example_module)) = 2.
Proof.
  assert (Hfuel : 0 <= 2 < Z.of_nat 3) by lia.
  split; [exact Hfuel|].
  destruct (getValidBins_greatest_cached 3 1 2 example_module Hfuel)
    as [(e & Hfound & Hrange & Hsome & Hnone & Hcount)|(_ & Hnone & _)].
  - assert (e = 0) as ->.
    { destruct (decide (e = 0)) as [|Hne]; [done|]. exfalso.
      assert (He : e = 1 ∨ e = 2) by lia.
      destruct He as [-> | ->]; destruct Hsome as [l Hl];
        [rewrite (proj1 (proj2 example_module_rows)) in Hl
        |rewrite (proj1 example_module_rows) in Hl]; discriminate. }
    split; [exact Hfound|]. rewrite Hcount. reflexivity.
  - exfalso. specialize (Hnone 0 ltac:(lia)).
    rewrite (proj1 (proj2 (proj2 example_module_rows))) in Hnone. discriminate.
Defined.

(** X2. A call of [getValidBins] changes no cached matrix (the row that
    [operator[]] may create is empty), no covariance, no edge, nothing of
    the generator or of the output stream, and never lowers the miss
    counter; called again on the bins it returned, it returns them and
    counts no miss. *)
Theorem getValidBins_keeps_cache (fuel : nat) (ptbin etabin : Z)
    (self : IPCovSmearing) :
  (forall i j,
     lookup2 (fSmearingMatrices (snd (getValidBins fuel ptbin etabin self))) i j
     = lookup2 (fSmearingMatrices self) i j)
  ∧ fCovarianceMatrices (snd (getValidBins fuel ptbin etabin self))
    = fCovarianceMatrices self
  ∧ ptbins (snd (getValidBins fuel ptbin etabin self)) = ptbins self
  ∧ etabins (snd (getValidBins fuel ptbin etabin self)) = etabins self
  ∧ fRandomGenerator (snd (getValidBins fuel ptbin etabin self))
    = fRandomGenerator self
  ∧ sout (snd (getValidBins fuel ptbin etabin self)) = sout self
  ∧ fNBinMisses self <= fNBinMisses (snd (getValidBins fuel ptbin etabin self))
  ∧ (forall bins (fuel' : nat),
       fst (getValidBins fuel ptbin etabin self) = Ok bins ->
       fst (getValidBins (S fuel') bins.1 bins.2
              (snd (getValidBins fuel ptbin etabin self))) = Ok bins
       ∧ fNBinMisses
           (snd (getValidBins (S fuel') bins.1 bins.2
                   (snd (getValidBins fuel ptbin etabin self))))
         = fNBinMisses (snd (getValidBins fuel ptbin etabin self))).
Proof.
  destruct (getValidBins_fallback fuel ptbin etabin self)
    as (Hres & Hmiss & Hrows & Hcov & Hpt & Heta & Hrng & Hsout).
  split; [intros i j; by rewrite !lookup2_row, Hrows|].
  split; [done|]. split; [done|]. split; [done|]. split; [done|]. split; [done|].
  split.
  { rewrite Hmiss.
    pose proof (fallback_counts_up fuel (row (fSmearingMatrices self) ptbin) etabin). lia. }
  intros bins fuel' Hok. rewrite Hres in Hok.
  destruct (fst (fallback fuel (row (fSmearingMatrices self) ptbin) etabin))
    as [e|f] eqn:Hfound; [|discriminate].
  injection Hok as <-. cbn [fst snd].
  destruct (fallback_found _ _ _ _ Hfound) as (_ & [l Hl] & _).
  destruct (getValidBins_fallback (S fuel') ptbin e
              (snd (getValidBins fuel ptbin etabin self))) as (-> & -> & _).
  rewrite Hrows, (fallback_cached _ _ _ _ Hl). simpl. split; [done | lia].
Qed.

(** ** What a completed turn of Process did *)

Lemma smear_track_inversion (fuel : nat) (w : World) (track : address) (w' : World) :
  smear_track fuel track w = Ok w' ->
  exists this particle bins self' l cov filled,
    track_of w track this particle
    ∧ resolves fuel w particle bins self'
    ∧ lookup2 (fSmearingMatrices (module w)) bins.1 bins.2 = Some l
    ∧ lookup2 (fCovarianceMatrices (module w)) bins.1 bins.2 = Some cov
    ∧ fill_smeared_track particle this
        (smeared_parameters l (fRandomGenerator (module w)) particle this) cov
      = Ok filled
    ∧ w' = {| module :=
                set_fRandomGenerator
                  (snd (getRandomVector (fRandomGenerator (module w)))) self';
              store :=
                <[fresh (dom (store w)) := set_fArray (track :: nil) filled]>
                  (<[fresh (dom (store w)) := this]> (store w));
              fOutputArray := fOutputArray w ++ fresh (dom (store w)) :: nil |}.
Proof.
  intros Hok.
  destruct (smear_track_completed fuel w track w' Hok)
    as (this & particle & bins & self' & cov & Htrack & Hres & Hcov).
  destruct (smear_track_runs fuel w track this particle bins self' cov Htrack Hres Hcov)
    as (l & Hl & Hrun).
  rewrite Hrun in Hok.
  destruct (fill_smeared_track particle this
              (smeared_parameters l (fRandomGenerator (module w)) particle this) cov)
    as [filled|e] eqn:Hfill; simpl in Hok; [|discriminate].
  injection Hok as <-.
  by exists this, particle, bins, self', l, cov, filled.
Qed.

Lemma resolves_counts fuel w particle bins self' :
  resolves fuel w particle bins self' ->
  bins.1 = ptbin_of (module w) (Pt (Momentum particle))
  ∧ bins.2 <= etabin_of (module w) (Eta (Momentum particle))
  ∧ (forall e', bins.2 < e' <= etabin_of (module w) (Eta (Momentum particle)) ->
       lookup2 (fSmearingMatrices (module w)) bins.1 e' = None)
  ∧ fNBinMisses self'
    = fNBinMisses (module w)
      + (etabin_of (module w) (Eta (Momentum particle)) - bins.2)
  ∧ same_but_misses self' (module w).
Proof.
  unfold resolves. intros Hres.
  destruct (getValidBins_fallback fuel
              (ptbin_of (module w) (Pt (Momentum particle)))
              (etabin_of (module w) (Eta (Momentum particle))) (module w))
    as (Hfst & Hmiss & Hsame).
  rewrite Hres in Hfst, Hmiss, Hsame. cbn [fst snd] in Hfst, Hmiss, Hsame.
  destruct (fst (fallback fuel _ _)) as [e|f] eqn:Hfound; [|discriminate].
  injection Hfst as ->. cbn [fst snd].
  destruct (fallback_found _ _ _ _ Hfound) as (Hle & _ & Hcount & Hnone).
  split; [done|]. split; [done|]. split.
  { intros e' He'. rewrite lookup2_row. by apply Hnone. }
  split; [lia | done].
Qed.

(** What a completed turn leaves of the module. *)
Lemma smear_track_module (fuel : nat) (w : World) (track : address) (w' : World) :
  smear_track fuel track w = Ok w' ->
  (forall i j, lookup2 (fSmearingMatrices (module w')) i j
               = lookup2 (fSmearingMatrices (module w)) i j)
  ∧ fCovarianceMatrices (module w') = fCovarianceMatrices (module w)
  ∧ ptbins (module w') = ptbins (module w)
  ∧ etabins (module w') = etabins (module w)
  ∧ sout (module w') = sout (module w)
  ∧ fRandomGenerator (module w')
    = snd (getRandomVector (fRandomGenerator (module w)))
  ∧ fNBinMisses (module w) <= fNBinMisses (module w').
Proof.
  intros Hok.
  destruct (smear_track_inversion fuel w track w' Hok)
    as (this & particle & bins & self' & l & cov & filled
        & _ & Hres & _ & _ & _ & ->).
  destruct (resolves_counts _ _ _ _ _ Hres)
    as (_ & Hle & _ & Hcount & Hrows & Hcov & Hpt & Heta & _ & Hsout).
  cbn [module]. simpl.
  split; [intros i j; by rewrite !lookup2_row, Hrows|].
  split; [done|]. split; [done|]. split; [done|]. split; [done|].
  split; [done | lia].
Qed.

Lemma example_world_smears :
  exists w', smear_track 2 1%positive example_world = Ok w'.
Proof.
  destruct (zero_noise_is_finite example_particle example_track) as (Hrec & Htan);
    [simpl; lia | simpl; lra |].
  destruct (smear_track_zero_noise 2 example_world 1%positive example_track
              example_particle (1, 0) (snd (getValidBins 2 1 1 example_module))
              Identity (Pt (Momentum example_particle))
              example_track_of example_resolves
              (proj2 (proj2 (proj2 example_module_rows))) example_zero_noise)
    as (w' & _ & Hrun & _); [simpl; lra | exact Hrec | simpl; lra | exact Htan |].
  by exists w'.
Qed.

Lemma example_world_processes :
  exists w', Process 2 (1%positive :: nil) example_world = Ok w'.
Proof.
  destruct example_world_smears as (w' & Hrun).
  exists w'. simpl. by rewrite Hrun.
Qed.



(** ** Process and Finish *)







(** ** The output track *)

Lemma set_covariance_lower (cov_array : TrkCovCell -> R) (cov : CovMatrix) (i j : nat) :
  (j <= i < 5)%nat -> set_covariance cov_array cov (i, j) = cov i j.
Proof.
  intros [Hji Hi].
  destruct i as [|[|[|[|[|?]]]]]; try lia;
    destruct j as [|[|[|[|[|?]]]]]; try lia; reflexivity.
Qed.

Lemma set_covariance_other (cov_array : TrkCovCell -> R) (cov : CovMatrix) (i j : nat) :
  ¬ (j <= i < 5)%nat -> set_covariance cov_array cov (i, j) = cov_array (i, j).
Proof.
  intros Hout.
  unfold set_covariance, TRKCOV_2TOARRAY, TRKCOV_TOARRAY,
    TrackParam.D0, TrackParam.Z0, TrackParam.PHI, TrackParam.THETA, TrackParam.QOVERP.
  repeat (case_decide; [exfalso; simplify_eq; lia|]).
  reflexivity.
Qed.

Lemma fill_smeared_track_uncertainty particle object smeared cov filled :
  fill_smeared_track particle object smeared cov = Ok filled ->
  trkCov filled = set_covariance (trkCov object) cov
  ∧ SDxy filled
    = sqrt (Rabs (set_covariance (trkCov object) cov (TrackParam.D0, TrackParam.D0))).
Proof.
  unfold fill_smeared_track. cbv zeta.
  destruct (Reqb (Pt _) 0); [discriminate|].
  destruct (Reqb _ 0); [by destruct (_ =? _)|].
  destruct (Rgeb _ _); [|discriminate].
  destruct (Rgtb _ _); [|discriminate].
  intros H. injection H as <-. done.
Qed.



Section Geometry.
Local Open Scope R_scope.

Lemma rebuilt_displacement (d0 phi : R) :
  d0 * cos (phi - PI / 2) = d0 * sin phi
  ∧ d0 * sin (phi - PI / 2) = d0 * - cos phi.
Proof. by rewrite cos_quarter_back, sin_quarter_back. Qed.

Lemma rebuilt_displacement_consistent (d0 phi : R) :
  (d0 * sin phi) * (d0 * sin phi) + (d0 * - cos phi) * (d0 * - cos phi) = d0 * d0
  ∧ (d0 * sin phi) * cos phi + (d0 * - cos phi) * sin phi = 0
  ∧ (d0 * sin phi) * sin phi - (d0 * - cos phi) * cos phi = d0.
Proof.
  pose proof (sin2_cos2 phi) as Hunit. unfold Rsqr in Hunit.
  split; [|split].
  - transitivity (d0 * d0 * (sin phi * sin phi + cos phi * cos phi));
      [ring | rewrite Hunit; ring].
  - ring.
  - transitivity (d0 * (sin phi * sin phi + cos phi * cos phi));
      [ring | rewrite Hunit; ring].
Qed.
End Geometry.

(** X8. A smearing that completes has stayed in the real numbers: the
    particle's pt is not 0, the smeared qoverp is not 0 and tan(theta'/2)
    is positive, so that the output's pt is charge/(qoverp' * cosh(eta)),
    which is not negative, and its mass is the particle's.  In its output the position agrees with the stored
    parameters and with the momentum: Dxy and Zd are the smeared d0 and z0,
    (Xd, Yd) is Dxy * (sin phi, -cos phi) for the smeared phi, so it has
    length |Dxy|, is orthogonal to the transverse momentum of the output,
    and the formula that computed d0 from the input, applied to the output,
    gives Dxy back (times pt, by which it divides); the charge is the input
    track's. *)
Theorem smeared_track_geometry (fuel : nat) (w : World) (track : address)
    (w' : World) :
  smear_track fuel track w = Ok w' ->
  exists smeared_track out this particle,
    fOutputArray w' = fOutputArray w ++ smeared_track :: nil
    ∧ store w' !! smeared_track = Some out
    ∧ track_of w track this particle
    ∧ Pt (Momentum particle) <> 0%R
    ∧ trkPar out TrackParam.QOVERP <> 0%R
    ∧ (0 < tan (trkPar out TrackParam.THETA / 2))%R
    ∧ Pt (Momentum out)
      = (IZR (Charge particle)
         / (trkPar out TrackParam.QOVERP * cosh (Eta (Momentum particle))))%R
    ∧ (0 <= Pt (Momentum out))%R
    ∧ M (Momentum out) = M (Momentum particle)
    ∧ Dxy out = trkPar out TrackParam.D0
    ∧ Zd out = trkPar out TrackParam.Z0
    ∧ Xd out = (Dxy out * sin (trkPar out TrackParam.PHI))%R
    ∧ Yd out = (Dxy out * - cos (trkPar out TrackParam.PHI))%R
    ∧ (Xd out * Xd out + Yd out * Yd out)%R = (Dxy out * Dxy out)%R
    ∧ (Xd out * Px (Momentum out) + Yd out * Py (Momentum out))%R = 0%R
    ∧ (Xd out * Py (Momentum out) - Yd out * Px (Momentum out))%R
      = (Dxy out * Pt (Momentum out))%R
    ∧ Charge out = Charge this.
Proof.
  intros Hok.
  destruct (smear_track_inversion fuel w track w' Hok)
    as (this & particle & bins & self' & l & cov & filled
        & Htrack & _ & _ & _ & Hfill & ->).
  set (smeared := smeared_parameters l (fRandomGenerator (module w)) particle this) in *.
  destruct (fill_smeared_track_finite _ _ _ _ _ Hfill)
    as (Hpt0 & pt & Hrec & Hpos & Htan).
  destruct (fill_smeared_track_fills particle this smeared cov pt Hpt0 Hrec Hpos Htan)
    as (filled' & Hfill' & HM & HDxy & HZd & HXd & HYd & Hpar & _ & Hq & _).
  rewrite Hfill in Hfill'. injection Hfill' as <-.
  assert (Hqoverp : smeared TrackParam.QOVERP <> 0%R).
  { intros Hzero. apply (reconstructed_pt_None particle) in Hzero. congruence. }
  assert (Hformula : pt = (IZR (Charge particle)
                           / (smeared TrackParam.QOVERP
                              * cosh (Eta (Momentum particle))))%R).
  { rewrite (reconstructed_pt_Some _ _ Hqoverp) in Hrec. by injection Hrec. }
  exists (fresh (dom (store w))), (set_fArray (track :: nil) filled), this, particle.
  split; [done|]. split; [cbn [store]; by rewrite lookup_insert_eq|].
  split; [done|]. split; [done|].
  cbn [set_fArray Momentum Dxy Zd Xd Yd trkPar Charge].
  rewrite !Hpar by (unfold TrackParam.D0, TrackParam.Z0, TrackParam.PHI,
                      TrackParam.THETA, TrackParam.QOVERP; lia).
  rewrite HM, HDxy, HZd, HXd, HYd. unfold Px, Py.
  cbn [SetPtEtaPhiM Pt Eta Phi M]. unfold pi. rewrite (Rabs_right pt Hpos).
  replace (Phi (Momentum particle) - PI / 2
           + (smeared TrackParam.PHI - Phi (Momentum particle)))%R
    with (smeared TrackParam.PHI - PI / 2)%R by lra.
  destruct (rebuilt_displacement (smeared TrackParam.D0) (smeared TrackParam.PHI))
    as (-> & ->).
  destruct (rebuilt_displacement_consistent
              (smeared TrackParam.D0) (smeared TrackParam.PHI))
    as (Hlen & Horth & Hback).
  split; [done|]. split; [done|]. split; [done|]. split; [lra|].
  split; [done|].
  split; [done|]. split; [done|]. split; [done|]. split; [done|].
  split; [exact Hlen|].
  split.
  { transitivity (pt * (smeared TrackParam.D0 * sin (smeared TrackParam.PHI)
                        * cos (smeared TrackParam.PHI)
                        + smeared TrackParam.D0 * - cos (smeared TrackParam.PHI)
                          * sin (smeared TrackParam.PHI)))%R; [ring|].
    rewrite Horth. ring. }
  split; [|exact Hq].
  transitivity (pt * (smeared TrackParam.D0 * sin (smeared TrackParam.PHI)
                      * sin (smeared TrackParam.PHI)
                      - smeared TrackParam.D0 * - cos (smeared TrackParam.PHI)
                        * cos (smeared TrackParam.PHI)))%R; [ring|].
  rewrite Hback. ring.
Qed.

Lemma smeared_track_geometry_witness :
  exists w' smeared_track out,
    smear_track 2 1%positive example_world = Ok w'
    ∧ store w' !! smeared_track = Some out
    ∧ (0 < tan (trkPar out TrackParam.THETA / 2))%R
    ∧ (Xd out * Xd out + Yd out * Yd out)%R = (Dxy out * Dxy out)%R
    ∧ (0 <= Pt (Momentum out))%R.
Proof.
  destruct example_world_smears as (w' & Hrun).
  destruct (smeared_track_geometry 2 example_world 1%positive w' Hrun)
    as (smeared_track & out & this & particle
        & _ & Hout & _ & _ & _ & Htan & _ & Hpt & _ & _ & _ & _ & _ & Hlen & _).
  exists w', smeared_track, out.
  split; [exact Hrun|]. split; [exact Hout|]. split; [exact Htan|].
  split; [exact Hlen | exact Hpt].
Defined.



(** ** The covariances Init stores *)

Section Congruences.
Local Open Scope R_scope.

Lemma bin_factor_positive (ptbin : Z) (i : nat) : (i < 5)%nat -> 0 < bin_factor ptbin i.
Proof.
  intros Hi. unfold bin_factor, hack_factor, gev_factor.
  destruct (ptbin =? -1)%Z; index5 i; simpl; lra.
Qed.

Lemma stored_covariance_coeff (file : TFile) (smear_mult : R) (ipt ieta : Z)
    (cov : CovMatrix) :
  stored_covariance file smear_mult ipt ieta = Some cov ->
  exists loaded,
    file !! object_name ipt ieta = Some loaded
    ∧ forall i j, (i < 5)%nat -> (j < 5)%nat ->
        cov i j = bin_factor ipt i * loaded i j * bin_factor ipt j * smear_mult.
Proof.
  unfold stored_covariance. rewrite get_cov_matrix_reads.
  destruct (file !! object_name ipt ieta) as [loaded|]; [|discriminate].
  intros H. injection H as <-. exists loaded. split; [done|].
  intros i j Hi Hj. unfold mat_scale, bin_factor.
  destruct (ipt =? -1)%Z.
  - rewrite do_low_pt_hack_coeff, convert_units_to_gev_coeff by done. ring.
  - rewrite convert_units_to_gev_coeff by done. ring.
Qed.

Lemma congruence_psd (d : nat -> R) (c : R) (m m' : CovMatrix) :
  (forall i j, (i < 5)%nat -> (j < 5)%nat -> m' i j = d i * m i j * d j * c) ->
  0 <= c -> positive_semidefinite m -> positive_semidefinite m'.
Proof.
  intros Hc Hpos Hm x. specialize (Hm (fun i => d i * x i)).
  unfold mat_vec, sum5 in *. rewrite !Hc by lia. cbv beta in Hm.
  match goal with
  | |- 0 <= ?e =>
      match type of Hm with 0 <= ?f => replace e with (c * f) by ring end
  end.
  by apply Rmult_le_pos.
Qed.

Lemma congruence_symmetric (d : nat -> R) (c : R) (m m' : CovMatrix) :
  (forall i j, (i < 5)%nat -> (j < 5)%nat -> m' i j = d i * m i j * d j * c) ->
  symmetric m -> symmetric m'.
Proof.
  intros Hc Hm i j Hi Hj. rewrite !Hc by done. rewrite (Hm i j) by done. ring.
Qed.

Lemma congruence_back (d : nat -> R) (c : R) (m m' : CovMatrix) :
  (forall i, (i < 5)%nat -> 0 < d i) -> c <> 0 ->
  (forall i j, (i < 5)%nat -> (j < 5)%nat -> m' i j = d i * m i j * d j * c) ->
  forall i j, (i < 5)%nat -> (j < 5)%nat ->
    m i j = (fun k => / d k) i * m' i j * (fun k => / d k) j * / c.
Proof.
  intros Hd Hnz Hc i j Hi Hj. rewrite Hc by done. cbv beta.
  pose proof (Hd i Hi). pose proof (Hd j Hj). field. repeat split; lra.
Qed.
End Congruences.

(** X10. Every covariance [Init] stores is the file's matrix of that bin
    multiplied on both sides with a positive diagonal and with
    [smear_mult]; so it is symmetric when the file's matrix is, positive
    semi-definite when the file's matrix is and the multiplier is not
    negative, and, for a positive multiplier, only then: the matrix handed
    to the Cholesky factorisation is as good as the one in the file. *)
Theorem Init_covariances_follow_file (llt : CovMatrix -> LLT) (file : TFile)
    (smear_mult : R) (rng : RandomGenerator) :
  exists self,
    Init llt file smear_mult (new_IPCovSmearing rng) = Ok self
    ∧ forall ipt ieta cov,
        lookup2 (fCovarianceMatrices self) ipt ieta = Some cov ->
        exists loaded,
          file !! object_name ipt ieta = Some loaded
          ∧ (forall i j, (i < 5)%nat -> (j < 5)%nat ->
               cov i j
               = (bin_factor ipt i * loaded i j * bin_factor ipt j * smear_mult)%R)
          ∧ (forall i, (i < 5)%nat -> (0 < bin_factor ipt i)%R)
          ∧ (symmetric loaded -> symmetric cov)
          ∧ (smear_mult <> 0%R -> symmetric cov -> symmetric loaded)
          ∧ ((0 <= smear_mult)%R ->
             positive_semidefinite loaded -> positive_semidefinite cov)
          ∧ ((0 < smear_mult)%R ->
             positive_semidefinite cov -> positive_semidefinite loaded).
Proof.
  exists (initialised llt file smear_mult rng). split; [apply Init_new|].
  intros ipt ieta cov. rewrite initialised_fCovarianceMatrices.
  destruct (decide (bin_in_range ipt ieta)); [|discriminate].
  intros Hstored.
  destruct (stored_covariance_coeff _ _ _ _ _ Hstored) as (loaded & Hfile & Hcoeff).
  exists loaded. split; [done|]. split; [done|].
  split; [intros i Hi; by apply bin_factor_positive|].
  split; [by apply (congruence_symmetric (bin_factor ipt) smear_mult)|].
  split.
  { intros Hnz.
    apply (congruence_symmetric (fun k => / bin_factor ipt k)%R (/ smear_mult)%R).
    apply (congruence_back (bin_factor ipt) smear_mult loaded cov); try done.
    intros i Hi. by apply bin_factor_positive. }
  split; [by apply (congruence_psd (bin_factor ipt) smear_mult)|].
  intros Hpos.
  apply (congruence_psd (fun k => / bin_factor ipt k)%R (/ smear_mult)%R).
  - apply (congruence_back (bin_factor ipt) smear_mult loaded cov); try done.
    + intros i Hi. by apply bin_factor_positive.
    + lra.
  - apply Rlt_le. by apply Rinv_0_lt_compat.
Qed.

(** ** The objects Init reads *)

Lemma NoDup_fmap_inj_on {A B : Type} (f : A -> B) (l : list A) (x y : A) :
  NoDup (f <$> l) -> x ∈ l -> y ∈ l -> f x = f y -> x = y.
Proof.
  induction l as [|a l IH]; [by intros _ ?%elem_of_nil|].
  rewrite fmap_cons, NoDup_cons. intros (Ha & Hl).
  rewrite !elem_of_cons. intros [->|Hx] [->|Hy] Heq.
  - done.
  - exfalso. apply Ha. rewrite Heq. by apply list_elem_of_fmap_2.
  - exfalso. apply Ha. rewrite <- Heq. by apply list_elem_of_fmap_2.
  - by apply IH.
Qed.

Lemma named_bins_elem (ipt ieta : Z) :
  (ipt, ieta) ∈ named_bins <-> 0 <= ipt < 8 ∧ 0 <= ieta < 9.
Proof.
  unfold named_bins. rewrite list_elem_of_bind. split.
  - intros (p & (e & He%list_elem_of_singleton & Hp%elem_of_seqZ)%list_elem_of_bind
              & Hq%elem_of_seqZ).
    injection He as -> ->. lia.
  - intros (Hp & He). exists ipt. split; [|apply elem_of_seqZ; lia].
    apply list_elem_of_bind. exists ieta.
    split; [by apply list_elem_of_singleton | apply elem_of_seqZ; lia].
Qed.

Lemma matrix_names_distinct : NoDup ((fun bin => matrix_name bin.1 bin.2) <$> named_bins).
Proof. apply (bool_decide_unpack _). vm_compute. exact I. Qed.

Lemma matrix_name_inj (ipt ieta ipt' ieta' : Z) :
  0 <= ipt < 8 -> 0 <= ieta < 9 -> 0 <= ipt' < 8 -> 0 <= ieta' < 9 ->
  matrix_name ipt ieta = matrix_name ipt' ieta' -> ipt = ipt' ∧ ieta = ieta'.
Proof.
  intros Hp He Hp' He' Hname.
  assert (Heq : (ipt, ieta) = (ipt', ieta')); [|by injection Heq].
  apply (NoDup_fmap_inj_on (fun bin => matrix_name bin.1 bin.2) named_bins);
    [apply matrix_names_distinct | by apply named_bins_elem .. | done].
Qed.

Lemma object_name_eq (ipt ieta ipt' ieta' : Z) :
  bin_in_range ipt ieta -> bin_in_range ipt' ieta' ->
  object_name ipt ieta = object_name ipt' ieta'
  <-> ieta = ieta' ∧ Z.max 0 ipt = Z.max 0 ipt'.
Proof.
  unfold bin_in_range, object_name. intros (Hp & He) (Hp' & He').
  assert (Hmax : forall p, -1 <= p < 8 ->
            (if p =? -1 then 0 else p) = Z.max 0 p ∧ 0 <= Z.max 0 p < 8).
  { intros p Hr. destruct (Z.eqb_spec p (-1)); lia. }
  destruct (Hmax ipt Hp) as (-> & Hr), (Hmax ipt' Hp') as (-> & Hr').
  split.
  - intros Hname. apply matrix_name_inj in Hname; [lia | done ..].
  - by intros (-> & ->).
Qed.

(** X11. Between the bins of the loops, two read the same object of the
    file only when they have the same eta bin and the same pt bin, -1
    counting as 0.  So replacing the file's object of one bin changes what
    [Init] stores for that bin (and for its twin when the pt bin is 0 or
    -1), and leaves the covariance and the smearing matrix of every other
    bin as they were. *)
Theorem Init_reads_one_object_per_bin (llt : CovMatrix -> LLT) (file : TFile)
    (smear_mult : R) (rng : RandomGenerator) (ipt ieta : Z) (m : CovMatrix) :
  bin_in_range ipt ieta ->
  exists self changed,
    Init llt file smear_mult (new_IPCovSmearing rng) = Ok self
    ∧ Init llt (<[object_name ipt ieta := m]> file) smear_mult (new_IPCovSmearing rng)
      = Ok changed
    ∧ forall ipt' ieta',
        bin_in_range ipt' ieta' ->
        (object_name ipt' ieta' = object_name ipt ieta
         <-> ieta' = ieta ∧ Z.max 0 ipt' = Z.max 0 ipt)
        ∧ (ieta' ≠ ieta ∨ Z.max 0 ipt' ≠ Z.max 0 ipt ->
           lookup2 (fCovarianceMatrices changed) ipt' ieta'
           = lookup2 (fCovarianceMatrices self) ipt' ieta'
           ∧ lookup2 (fSmearingMatrices changed) ipt' ieta'
             = lookup2 (fSmearingMatrices self) ipt' ieta')
        ∧ (ieta' = ieta ∧ Z.max 0 ipt' = Z.max 0 ipt ->
           lookup2 (fCovarianceMatrices changed) ipt' ieta'
           = Some (mat_scale
                     (if ipt' =? -1 then do_low_pt_hack (convert_units_to_gev m)
                      else convert_units_to_gev m) smear_mult)).
Proof.
  intros Hin.
  exists (initialised llt file smear_mult rng),
    (initialised llt (<[object_name ipt ieta := m]> file) smear_mult rng).
  split; [apply Init_new|]. split; [apply Init_new|].
  intros ipt' ieta' Hin'.
  pose proof (object_name_eq ipt' ieta' ipt ieta Hin' Hin) as Hname.
  split; [exact Hname|].
  rewrite !initialised_fCovarianceMatrices, !initialised_fSmearingMatrices.
  destruct (decide (bin_in_range ipt' ieta')); [|done].
  unfold stored_covariance. rewrite !get_cov_matrix_reads. split.
  - intros Hother.
    assert (Hne : object_name ipt ieta ≠ object_name ipt' ieta').
    { intros Heq. symmetry in Heq. apply Hname in Heq. lia. }
    rewrite lookup_insert_ne by done. done.
  - intros Hsame. apply Hname in Hsame. rewrite Hsame, lookup_insert_eq. done.
Qed.

Lemma Init_reads_one_object_per_bin_witness :
  exists self changed,
    Init example_llt indefinite_file 1 (new_IPCovSmearing example_rng) = Ok self
    ∧ Init example_llt (<[object_name 3 2 := Identity]> indefinite_file) 1
        (new_IPCovSmearing example_rng) = Ok changed
    ∧ lookup2 (fCovarianceMatrices changed) 0 0
      = lookup2 (fCovarianceMatrices self) 0 0
    ∧ lookup2 (fCovarianceMatrices changed) 3 2
      = Some (mat_scale (convert_units_to_gev Identity) 1).
Proof.
  assert (Hin : bin_in_range 3 2) by (unfold bin_in_range; lia).
  destruct (Init_reads_one_object_per_bin example_llt indefinite_file 1 example_rng
              3 2 Identity Hin) as (self & changed & Hself & Hchanged & Hbins).
  exists self, changed. split; [exact Hself|]. split; [exact Hchanged|].
  split.
  - assert (Hin0 : bin_in_range 0 0) by (unfold bin_in_range; lia).
    destruct (Hbins 0 0 Hin0) as (_ & Hother & _).
    apply Hother. left. lia.
  - destruct (Hbins 3 2 Hin) as (_ & _ & Hsame).
    apply (Hsame (conj eq_refl eq_refl)).
Defined.

(** * Properties of the HDF5 writer *)

(** ** The names of the files *)

Section Names.
Import HDF5Writer.
Local Open Scope string_scope.

Lemma one_of_dot (c : ascii) : one_of "." c = true <-> c = "."%char.
Proof.
  cbn [one_of]. rewrite orb_false_r, Ascii.eqb_eq. split; intros H; by symmetry.
Qed.

Lemma find_last_of_dot_free (s : string) : find_last_of "." s = None <-> dot_free s.
Proof.
  induction s as [|c s IH]; [done|].
  cbn [find_last_of dot_free]. destruct (find_last_of "." s) as [pos|].
  - split; [discriminate|]. intros (_ & Hs). by apply IH in Hs.
  - destruct (one_of "." c) eqn:Hc.
    + apply one_of_dot in Hc. split; [discriminate | by intros (? & _)].
    + split; [|done]. intros _. split; [|by apply IH].
      intros Hdot. apply one_of_dot in Hdot. congruence.
Qed.

Lemma find_last_of_app (base ext : string) :
  dot_free ext ->
  find_last_of "." (base +:+ String "." ext) = Some (String.length base).
Proof.
  intros Hext. apply find_last_of_dot_free in Hext.
  induction base as [|c base IH].
  - change (match find_last_of "." ext with
            | Some pos => Some (S pos)
            | None => if one_of "." "."%char then Some 0%nat else None
            end = Some 0%nat).
    by rewrite Hext.
  - change (match find_last_of "." (base +:+ String "." ext) with
            | Some pos => Some (S pos)
            | None => if one_of "." c then Some 0%nat else None
            end = Some (S (String.length base))).
    by rewrite IH.
Qed.

Lemma substring_app (base rest : string) :
  substring 0 (String.length base) (base +:+ rest) = base.
Proof.
  induction base as [|c base IH]; [by destruct rest|].
  change (String c (substring 0 (String.length base) (base +:+ rest)) = String c base).
  by rewrite IH.
Qed.

Lemma remove_extension_dot_free (filename : string) :
  dot_free filename -> remove_extension filename = filename.
Proof.
  intros H. apply find_last_of_dot_free in H. unfold remove_extension. by rewrite H.
Qed.

Lemma remove_extension_app (base ext : string) :
  dot_free ext -> remove_extension (base +:+ String "." ext) = base.
Proof.
  intros H. unfold remove_extension. rewrite find_last_of_app by done.
  apply substring_app.
Qed.

Lemma last_dot (s : string) :
  dot_free s ∨ exists base ext, s = base +:+ String "." ext ∧ dot_free ext.
Proof.
  induction s as [|c s [IH|(base & ext & -> & Hext)]].
  - by left.
  - destruct (decide (c = "."%char)) as [->|Hc].
    + right. by exists "", s.
    + left. done.
  - right. by exists (String c base), ext.
Qed.

Lemma append_empty_r (s : string) : s +:+ "" = s.
Proof.
  induction s as [|c s IH]; [done|].
  change (String c (s +:+ "") = String c s). by rewrite IH.
Qed.

Lemma append_cancel_empty (s x : string) : s +:+ x = s -> x = "".
Proof.
  intros H. apply (String.app_inj s). by rewrite append_empty_r.
Qed.
End Names.

(** X12. [remove_extension] cuts a file name at its last dot, wherever the
    dot is: a name without a dot is returned as it is, and a name
    [base.ext] whose [ext] has no dot gives [base]; in both cases the
    result is a prefix of the name. *)
Theorem remove_extension_cuts_at_last_dot (filename : string) :
  ((dot_free filename ∧ HDF5Writer.remove_extension filename = filename)
   ∨ exists ext, dot_free ext
       ∧ filename = (HDF5Writer.remove_extension filename +:+ String "." ext)%string)
  ∧ (forall base ext, dot_free ext ->
       filename = (base +:+ String "." ext)%string ->
       HDF5Writer.remove_extension filename = base)
  ∧ (exists rest, filename = (HDF5Writer.remove_extension filename +:+ rest)%string).
Proof.
  split; [|split].
  - destruct (last_dot filename) as [Hfree|(base & ext & -> & Hext)].
    + left. split; [done | by apply remove_extension_dot_free].
    + right. exists ext. split; [done|]. by rewrite remove_extension_app.
  - intros base ext Hext ->. by apply remove_extension_app.
  - destruct (last_dot filename) as [Hfree|(base & ext & -> & Hext)].
    + exists ""%string. rewrite remove_extension_dot_free by done.
      by rewrite append_empty_r.
    + exists (String "." ext). by rewrite remove_extension_app.
Qed.

(** X13. The HDF5 file [Init] creates and truncates has the name of the
    tree writer's file only when the output extension is a dot followed by
    a dot-free suffix with which that name ends (or is empty, for a name
    without a dot); with the default extension .ntuple.h5 it never has.
    The text file is opened exactly when its extension is not empty, and
    it is the HDF5 file exactly when the two extensions are equal. *)
Theorem Init_names_its_files (conf : gmap string string) (OutputFileName : string) :
  let output_ext := HDF5Writer.GetString conf "OutputExtension" ".ntuple.h5" in
  let text_file_ext := HDF5Writer.GetString conf "TextFileExtension" "" in
  let files := HDF5Writer.Init conf OutputFileName in
  (HDF5Writer.m_out_file files = OutputFileName
   <-> (dot_free OutputFileName ∧ output_ext = ""%string)
       ∨ exists base ext, dot_free ext ∧ output_ext = String "." ext
                          ∧ OutputFileName = (base +:+ output_ext)%string)
  ∧ (conf !! "OutputExtension"%string = None ->
     HDF5Writer.m_out_file files ≠ OutputFileName)
  ∧ (HDF5Writer.m_output_stream files = None <-> text_file_ext = ""%string)
  ∧ (forall name, HDF5Writer.m_output_stream files = Some name ->
       name = (HDF5Writer.remove_extension OutputFileName +:+ text_file_ext)%string
       ∧ (name = HDF5Writer.m_out_file files <-> text_file_ext = output_ext)).
Proof.
  intros output_ext text_file_ext files.
  assert (Hsame : HDF5Writer.m_out_file files = OutputFileName
    <-> (dot_free OutputFileName ∧ output_ext = ""%string)
        ∨ exists base ext, dot_free ext ∧ output_ext = String "." ext
                           ∧ OutputFileName = (base +:+ output_ext)%string).
  { subst files. unfold HDF5Writer.Init. cbn [HDF5Writer.m_out_file].
    fold output_ext. split.
    - destruct (last_dot OutputFileName) as [Hfree|(base & ext & -> & Hext)].
      + rewrite remove_extension_dot_free by done.
        intros H%append_cancel_empty. by left.
      + rewrite remove_extension_app by done.
        intros H%(String.app_inj base). right. exists base, ext.
        split; [done|]. split; [done|]. by rewrite H.
    - intros [(Hfree & ->)|(base & ext & Hext & Hoe & ->)].
      + rewrite remove_extension_dot_free by done. apply append_empty_r.
      + rewrite Hoe. by rewrite remove_extension_app. }
  split; [exact Hsame|]. split.
  { intros Hdefault Heq. apply Hsame in Heq. subst output_ext.
    unfold HDF5Writer.GetString in Heq. rewrite Hdefault in Heq.
    destruct Heq as [(_ & Hempty)|(base & ext & Hext & Hoe & _)]; [discriminate|].
    injection Hoe as <-. destruct Hext as (_ & _ & _ & _ & _ & _ & Hdot & _).
    by apply Hdot. }
  subst files. unfold HDF5Writer.Init. cbn [HDF5Writer.m_out_file HDF5Writer.m_output_stream].
  fold output_ext text_file_ext.
  destruct text_file_ext as [|c rest] eqn:Htext; cbn [String.length Nat.ltb Nat.leb].
  - split; [done|]. intros name Hname. discriminate.
  - split; [split; discriminate|].
    intros name Hname. injection Hname as <-. split; [done|].
    split.
    + intros H%(String.app_inj (HDF5Writer.remove_extension OutputFileName)). done.
    + intros <-. done.
Qed.

(** ** The secondary-vertex tracks of a jet *)

Section SecondaryTracks.
Import HDF5Writer.

Lemma visit_vertices_flat (jet : Candidate) :
  visit_vertices jet
  = fold_left visit (jet_tracks jet)
      {| used := ∅; n_overlap := 0; sorted_secondary_tracks := nil |}.
Proof.
  unfold visit_vertices, jet_tracks.
  generalize {| used := ∅; n_overlap := 0; sorted_secondary_tracks := nil |}.
  induction (rev (secondaryVertices jet)) as [|vx vertices IH]; intros locals; [done|].
  rewrite bind_cons, fold_left_app. cbn [fold_left]. rewrite IH. f_equal.
  generalize locals.
  induction (tracks_along_jet vx) as [|trk tracks IHt]; intros locals'; [done|].
  rewrite bind_cons, fold_left_app. cbn [fold_left app]. by rewrite IHt.
Qed.

Lemma visit_seen (locals : Locals) (c : SecondaryVertexTrack * SecondaryVertex) :
  is_Some (used locals !! pointer c) ->
  visit locals c
  = {| used := used locals; n_overlap := n_overlap locals + 1;
       sorted_secondary_tracks := sorted_secondary_tracks locals |}.
Proof.
  intros [seen Hseen]. unfold visit, visit_track, count. fold (pointer c).
  by rewrite Hseen.
Qed.

Lemma visit_new (locals : Locals) (c : SecondaryVertexTrack * SecondaryVertex) :
  used locals !! pointer c = None ->
  visit locals c
  = {| used := <[pointer c := weight c.1]> (used locals);
       n_overlap := n_overlap locals;
       sorted_secondary_tracks := sorted_secondary_tracks locals ++ combined c :: nil |}.
Proof.
  intros Hnew. unfold visit, visit_track, count, emplace. fold (pointer c).
  by rewrite Hnew.
Qed.

Lemma visit_all (l : list (SecondaryVertexTrack * SecondaryVertex)) :
  let locals :=
    fold_left visit l {| used := ∅; n_overlap := 0; sorted_secondary_tracks := nil |} in
  exists kept,
    sorted_secondary_tracks locals = combined <$> kept
    ∧ kept `sublist_of` l
    ∧ NoDup (pointer <$> kept)
    ∧ (forall p, is_Some (used locals !! p) <-> p ∈ pointer <$> l)
    ∧ (forall p, p ∈ pointer <$> l -> p ∈ pointer <$> kept)
    ∧ (forall c, c ∈ kept ->
         first_of_its_track c l ∧ used locals !! pointer c = Some (weight c.1))
    ∧ n_overlap locals + Z.of_nat (length kept) = Z.of_nat (length l).
Proof.
  induction l as [|c l IH] using rev_ind.
  - exists nil. cbn. split; [done|]. split; [done|]. split; [constructor|].
    split; [intros p; rewrite lookup_empty, elem_of_nil; split; [by intros [? ?]|done]|].
    split; [done|]. split; [by intros c ?%elem_of_nil | done].
  - cbv zeta in *. rewrite fold_left_app. cbn [fold_left].
    destruct IH as (kept & Hout & Hsub & Hnodup & Hused & Hall & Hfirst & Hcount).
    revert Hout Hused Hfirst Hcount.
    generalize (fold_left visit l
                  {| used := ∅; n_overlap := 0; sorted_secondary_tracks := nil |}).
    intros locals Hout Hused Hfirst Hcount.
    assert (Hsubp : forall p, p ∈ pointer <$> kept -> p ∈ pointer <$> l).
    { intros p (k & -> & Hk)%list_elem_of_fmap. apply list_elem_of_fmap_2.
      by eapply elem_of_sublist. }
    destruct (used locals !! pointer c) as [seen|] eqn:Hseen.
    + rewrite visit_seen by (by eexists).
      exists kept. cbn [used n_overlap sorted_secondary_tracks].
      assert (Hc : pointer c ∈ pointer <$> l) by (apply Hused; by eexists).
      split; [done|]. split; [by apply sublist_inserts_r|]. split; [done|].
      split.
      { intros p. rewrite fmap_app, elem_of_app, Hused. cbn [fmap list_fmap].
        rewrite list_elem_of_singleton. split; [by left|]. by intros [?| ->]. }
      split.
      { intros p. rewrite fmap_app, elem_of_app. cbn [fmap list_fmap].
        rewrite list_elem_of_singleton. intros [?| ->]; by apply Hall. }
      split.
      { intros k Hk. destruct (Hfirst k Hk) as ((before & after & -> & Hnew) & Hw).
        split; [|done]. exists before, (after ++ c :: nil).
        split; [by rewrite <- app_assoc|done]. }
      rewrite length_app. cbn [length]. lia.
    + assert (Hc : pointer c ∉ pointer <$> l).
      { intros Hc. apply Hused in Hc as [? Hc]. congruence. }
      rewrite visit_new by done.
      exists (kept ++ c :: nil). cbn [used n_overlap sorted_secondary_tracks].
      split; [by rewrite Hout, fmap_app|].
      split; [by apply sublist_app|].
      split.
      { rewrite fmap_app. apply NoDup_app. split; [done|]. split.
        - intros p Hp. cbn [fmap list_fmap]. rewrite list_elem_of_singleton.
          intros ->. by apply Hc, Hsubp.
        - cbn. apply NoDup_singleton. }
      split.
      { intros p. rewrite lookup_insert_is_Some', fmap_app, elem_of_app, Hused.
        cbn [fmap list_fmap]. rewrite list_elem_of_singleton.
        split; intros [?|?]; auto. }
      split.
      { intros p. rewrite !fmap_app, !elem_of_app. intros [?|?]; [left|right]; auto. }
      split.
      { intros k [Hk| ->%list_elem_of_singleton]%elem_of_app.
        - destruct (Hfirst k Hk) as ((before & after & -> & Hnew) & Hw).
          split.
          + exists before, (after ++ c :: nil). split; [by rewrite <- app_assoc|done].
          + rewrite lookup_insert_ne; [done|].
            intros Heq. apply Hc. rewrite Heq. apply Hsubp.
            by apply list_elem_of_fmap_2.
        - split; [|by rewrite lookup_insert_eq].
          exists l, nil. done. }
      rewrite !length_app. cbn [length]. lia.
Qed.
End SecondaryTracks.

(** X14. When the sort permutes its argument, the tracks
    [get_sorted_secondary_tracks] returns are those of the jet's vertices
    with every track address kept once: the kept entries are a
    subsequence of the tracks in the order of the loops (last vertex
    first), each is the first entry of its address in that order, every
    address is kept, so the number of tracks returned is the number of
    distinct addresses, and the overlap counter is the number of entries
    dropped. *)
Theorem secondary_tracks_are_written_once
    (sort : list HDF5Writer.out.CombinedSecondaryTrack ->
            list HDF5Writer.out.CombinedSecondaryTrack)
    (jet : HDF5Writer.Candidate) :
  (forall l, sort l ≡ₚ l) ->
  exists kept,
    HDF5Writer.get_sorted_secondary_tracks sort jet ≡ₚ combined <$> kept
    ∧ kept `sublist_of` jet_tracks jet
    ∧ NoDup (pointer <$> kept)
    ∧ (forall c, c ∈ jet_tracks jet -> pointer c ∈ pointer <$> kept)
    ∧ (forall c, c ∈ kept -> first_of_its_track c (jet_tracks jet))
    ∧ length (HDF5Writer.get_sorted_secondary_tracks sort jet)
      = size (list_to_set (pointer <$> jet_tracks jet) : gset address)
    ∧ HDF5Writer.n_overlap (HDF5Writer.visit_vertices jet)
      = Z.of_nat (length (jet_tracks jet))
        - Z.of_nat (length (HDF5Writer.get_sorted_secondary_tracks sort jet)).
Proof.
  intros Hsort. unfold HDF5Writer.get_sorted_secondary_tracks.
  rewrite visit_vertices_flat.
  destruct (visit_all (jet_tracks jet))
    as (kept & Hout & Hsub & Hnodup & Hused & Hall & Hfirst & Hcount).
  exists kept. rewrite Hsort, Hout, length_fmap.
  split; [done|]. split; [done|]. split; [done|].
  split; [intros c Hc; by apply Hall, list_elem_of_fmap_2|].
  split; [intros c Hc; by apply Hfirst|].
  split; [|lia].
  rewrite <- (length_fmap pointer kept), <- (size_list_to_set (C := gset address)) by done.
  f_equal. apply set_eq. intros p. rewrite !elem_of_list_to_set. split; [|by apply Hall].
  intros (k & -> & Hk)%list_elem_of_fmap. apply list_elem_of_fmap_2.
  by eapply elem_of_sublist.
Qed.

Lemma secondary_tracks_are_written_once_witness :
  exists kept,
    HDF5Writer.get_sorted_secondary_tracks example_sort example_jet
      ≡ₚ combined <$> kept
    ∧ NoDup (pointer <$> kept)
    ∧ (forall c, c ∈ kept -> first_of_its_track c (jet_tracks example_jet))
    ∧ HDF5Writer.n_overlap (HDF5Writer.visit_vertices example_jet)
      = 4 - Z.of_nat (length (HDF5Writer.get_sorted_secondary_tracks
                                example_sort example_jet)).
Proof.
  destruct (secondary_tracks_are_written_once example_sort example_jet)
    as (kept & Hperm & _ & Hnodup & _ & Hfirst & _ & Hcount).
  { intros l. apply merge_sort_Permutation. }
  exists kept. split; [exact Hperm|]. split; [exact Hnodup|].
  split; [exact Hfirst | exact Hcount].
Defined.
